(** * dramavis: the analysis core of [dramalyzer.py]

    A shallow embedding of [DramaAnalyzer] (src/dramalyzer.py) together with
    the parts of [Lina] (src/linacorpus.py) that feed it.

    Conventions of the embedding.
    - Python dicts and sets are stdpp [gmap]s and [gset]s; Python lists are
      lists.  Iteration over a set or a dict is a fold over its elements, and
      only order-independent facts are stated about such folds.
    - Python floats are idealised as rationals [Q]; the string sentinels
      ["NaN"] and ["SEVERAL"] are constructors of the value types below.
    - A Python call either returns or raises: [result A]. *)

From Stdlib Require Import QArith Qabs.
From Stdlib Require Import DecimalString DecimalNat.
From stdpp Require Import gmap strings list fin_maps fin_sets.

Close Scope Q_scope.
Set Warnings "-clear-no-such-hyp".

Local Open Scope string_scope.
Local Open Scope list_scope.

(** ** Python outcomes *)

Inductive exn : Set :=
  | ZeroDivisionError
  | IndexError
  | ValueError
  | TypeError
  | KeyError
  | NetworkXError
  | NetworkXPointlessConcept.

Inductive result (A : Type) : Type :=
  | Ok (a : A)
  | Raise (e : exn).
Arguments Ok {A} a.
Arguments Raise {A} e.

Definition bind {A B} (r : result A) (k : A -> result B) : result B :=
  match r with
  | Ok a => k a
  | Raise e => Raise e
  end.

#[global] Instance result_ret : MRet result := fun A a => Ok a.
#[global] Instance result_bind : MBind result := fun A B k r => bind r k.

Definition returns {A} (r : result A) : Prop := exists a, r = Ok a.

(** [a / b] on Python numbers (true division). *)
Definition truediv (a b : Q) : result Q :=
  if Qeq_bool b 0 then Raise ZeroDivisionError else Ok (a / b)%Q.

Definition QofN (n : nat) : Q := inject_Z (Z.of_nat n).

(** ** Input data, as [Lina.parse_drama] hands it over *)

(** A character is the [charname] string that [create_charmap] maps every
    alias to; a segment is [list(set(speakers))]. *)
Abbreviation character := string (only parsing).
Abbreviation segment := (list string) (only parsing).

(** [extract_personae] returns a list of one-entry dicts [{name: aliases}]. *)
Definition persona : Type := string * list string.

Definition pyset (x : segment) : gset character := list_to_set x.

(** ** Temporal dynamics *)

Module Temporal.

(** The body of the loop of [get_drama_change_rate]. *)
Definition change_rate (x y : segment) : result Q :=
  let s := pyset x in
  let t := pyset y in
  let u := s ∩ t in
  let cr := (Z.abs (Z.of_nat (size s) - Z.of_nat (size u))
             + Z.abs (Z.of_nat (size u) - Z.of_nat (size t)))%Z in
  let cr_sum := size (s ∪ t) in
  truediv (inject_Z cr) (QofN cr_sum).

(** [self.segments[:-1]] and [self.segments[1:]]. *)
Definition but_last (segs : list segment) : list segment := removelast segs.
Definition from_1 (segs : list segment) : list segment := tail segs.

(** [zip_longest] of two lists; the two slices above always have the same
    length, so no fill value is ever produced. *)
Fixpoint zip_longest (xs ys : list segment) : list (segment * segment) :=
  match xs, ys with
  | x :: xs', y :: ys' => (x, y) :: zip_longest xs' ys'
  | x :: xs', [] => (x, []) :: zip_longest xs' []
  | [], ys => map (fun y => ([], y)) ys
  end.

Fixpoint change_rate_loop (ps : list (segment * segment)) (change_rates : list Q)
  : result (list Q) :=
  match ps with
  | [] => Ok change_rates
  | (x, y) :: ps' =>
      c ← change_rate x y;
      change_rate_loop ps' (change_rates ++ [c])
  end.

Definition get_drama_change_rate (segs : list segment) : result (list Q) :=
  change_rate_loop (zip_longest (but_last segs) (from_1 segs)) [].

(** [self.segments[-1]]. *)
Definition last_segment (segs : list segment) : result segment :=
  match segs with
  | [] => Raise IndexError
  | _ => Ok (List.last segs [])
  end.

(** [get_final_scene_size]; [n_personae = len(self.personae)]. *)
Definition get_final_scene_size (personae : list persona) (segs : list segment)
  : result Q :=
  l ← last_segment segs;
  truediv (QofN (length l)) (QofN (length personae)).

(** [get_characters_last_in]: [",".join(self.segments[-1])]. *)
Definition get_characters_last_in (segs : list segment) : result string :=
  l ← last_segment segs;
  Ok (String.concat "," l).

(** The Jaccard distance of two sets, in the words of the specification. *)
Definition sym_diff (s t : gset character) : gset character := (s ∖ t) ∪ (t ∖ s).

Definition jaccard_distance (s t : gset character) : Q :=
  (QofN (size (sym_diff s t)) / QofN (size (s ∪ t)))%Q.

Definition both_empty (x y : segment) : Prop := x = [] /\ y = [].

(** No two neighbouring segments are both empty. *)
Definition no_empty_pair (segs : list segment) : Prop :=
  forall k x y, segs !! k = Some x -> segs !! S k = Some y -> ~ both_empty x y.

End Temporal.

(** ** Null-model sampler *)

Module Sampler.

(** What the two accumulators of [randomize_graph] can hold: a number, or the
    string that the exhausted-retry branch stores. *)
Inductive pyval : Type :=
  | Num (q : Q)
  | Str (s : string).

(** [x + y] with [y] a float: defined on numbers, [TypeError] on a string. *)
Definition py_add (x : pyval) (y : Q) : result pyval :=
  match x with
  | Num q => Ok (Num (q + y)%Q)
  | Str _ => Raise TypeError
  end.

(** [x / n] with [n] an int. *)
Definition py_div (x : pyval) (n : nat) : result pyval :=
  match x with
  | Num q => r ← truediv q (QofN n); Ok (Num r)
  | Str _ => Raise TypeError
  end.

(** [try: v = r  except: v = "NaN"]. *)
Definition or_NaN (r : result pyval) : pyval :=
  match r with
  | Ok v => v
  | Raise _ => Str "NaN"
  end.

(** The random draws of one call.  [gnm_random_graph] is the only source of
    randomness, so a call is determined by what the two networkx statistics
    give on each drawn graph: [clustering i] for the graph of sample [i]
    ([None]: [ZeroDivisionError], the only fault of [average_clustering] on
    a simple graph), and [pathlength i j] for the graph drawn in attempt [j]
    (counted from 1) of sample [i] ([None]: any exception). *)
Record draws : Type := {
  clustering : nat -> option Q;
  pathlength : nat -> nat -> option Q
}.

Definition of_option (o : option Q) (e : exn) : result Q :=
  match o with
  | Some q => Ok q
  | None => Raise e
  end.

(** The [while True] loop of one sample.  [j] is the counter of the source
    before its increment; [fuel] bounds the unfolding and 51 is always
    enough, since the loop leaves at [j > 50]. *)
Fixpoint retry_loop (draw : nat -> option Q) (fuel j : nat)
    (randavgpathl : pyval) (a : nat) : pyval * nat :=
  match fuel with
  | 0 => (randavgpathl, a)
  | S fuel' =>
      let j := S j in
      match (x ← of_option (draw j) NetworkXError; py_add randavgpathl x) with
      | Ok v => (v, S a)
      | Raise _ =>
          if (50 <? j)%nat then (Str "NaN", a)
          else retry_loop draw fuel' j randavgpathl a
      end
  end.

Record acc : Type := {
  randcluster : Q;
  c : nat;
  randavgpathl : pyval;
  a : nat
}.

(** One iteration of [for i in range(self.randomization)]. *)
Definition sample (d : draws) (i : nat) (st : acc) : acc :=
  let '(rc, c') :=
    match clustering d i with
    | Some x => ((randcluster st + x)%Q, S (c st))
    | None => (randcluster st, c st)
    end in
  let '(rp, a') := retry_loop (pathlength d i) 51 0 (randavgpathl st) (a st) in
  {| randcluster := rc; c := c'; randavgpathl := rp; a := a' |}.

(** Samples [i], [i+1], ..., [i+count-1]. *)
Fixpoint samples (d : draws) (count i : nat) (st : acc) : acc :=
  match count with
  | 0 => st
  | S count' => samples d count' (S i) (sample d i st)
  end.

(** [randomize_graph]: returns [(randavgpathl, randcluster)]. *)
Definition randomize_graph (randomization : nat) (d : draws) : pyval * pyval :=
  let st := samples d randomization 0
              {| randcluster := 0; c := 0; randavgpathl := Num 0; a := 0 |} in
  (or_NaN (py_div (randavgpathl st) (a st)),
   or_NaN (py_div (Num (randcluster st)) (c st))).

(** The accumulator holds a string. *)
Definition poisoned (st : acc) : Prop := exists s, randavgpathl st = Str s.

(** The draws of a three-sample run: sample 0 succeeds at once with path
    length 2, sample 1 fails in every attempt, sample 2 succeeds at once
    with path length 4; clustering is 1/2 on every drawn graph. *)
Definition one_exhausted_sample : draws :=
  {| clustering := fun _ => Some (1 # 2)%Q;
     pathlength := fun i j =>
       match i with
       | 0 => Some 2%Q
       | 1 => None
       | _ => Some 4%Q
       end |}.

End Sampler.

(** ** networkx 1.x graphs *)

Module Nx.

(** A [networkx.Graph]: the dict [node] from a node to its attribute dict,
    and the dict of dicts [adj], with [adj[u][v]] the attribute dict of the
    edge.  Attribute values are the integers the program stores
    ([bipartite], [weight]). *)
Record Graph : Type := mkGraph {
  node : gmap string (gmap string nat);
  adj : gmap string (gmap string (gmap string nat))
}.

Definition empty_graph : Graph := mkGraph ∅ ∅.

(** [n in G.nodes()]. *)
Definition has_node (G : Graph) (n : string) : bool :=
  bool_decide (is_Some (node G !! n)).

(** [G.nodes()], as a set. *)
Definition nodes (G : Graph) : gset string := dom (node G).

(** [G.add_node(n, **attr)]: a new node gets an empty adjacency dict, an
    existing one has its attributes updated. *)
Definition add_node (n : string) (attr : gmap string nat) (G : Graph) : Graph :=
  match node G !! n with
  | None => mkGraph (<[n := attr]> (node G)) (<[n := ∅]> (adj G))
  | Some old => mkGraph (<[n := attr ∪ old]> (node G)) (adj G)
  end.

(** [G[u]]; every caller below passes a node of [G]. *)
Definition neighbors (G : Graph) (u : string) : gmap string (gmap string nat) :=
  default ∅ (adj G !! u).

(** The implicit node creation of [add_edge]. *)
Definition touch (n : string) (G : Graph) : Graph :=
  match node G !! n with
  | None => mkGraph (<[n := ∅]> (node G)) (<[n := ∅]> (adj G))
  | Some _ => G
  end.

(** [G.add_edge(u, v, **attr)]. *)
Definition add_edge (u v : string) (attr : gmap string nat) (G : Graph) : Graph :=
  let G1 := touch v (touch u G) in
  let datadict := attr ∪ default ∅ (neighbors G1 u !! v) in
  let adj1 := <[u := <[v := datadict]> (neighbors G1 u)]> (adj G1) in
  let adj2 := <[v := <[u := datadict]> (default ∅ (adj1 !! v))]> adj1 in
  mkGraph (node G1) adj2.

(** [nx.bipartite.weighted_projected_graph(B, nodes)] with [ratio=False],
    on an undirected [B]. *)
Definition second_neighbors (B : Graph) (u : string) : gset string :=
  set_fold (fun nbr acc => dom (neighbors B nbr) ∪ acc) ∅ (dom (neighbors B u))
  ∖ {[u]}.

Definition common_neighbors (B : Graph) (u v : string) : gset string :=
  dom (neighbors B u) ∩ dom (neighbors B v).

Definition project_node (B : Graph) (u : string) (G : Graph) : Graph :=
  set_fold
    (fun v G => add_edge u v {["weight" := size (common_neighbors B u v)]} G)
    G (second_neighbors B u).

Definition copy_nodes (B : Graph) (ns : gset string) : Graph :=
  set_fold (fun n G => add_node n (default ∅ (node B !! n)) G) empty_graph ns.

Definition weighted_projected_graph (B : Graph) (ns : gset string) : Graph :=
  set_fold (project_node B) (copy_nodes B ns) ns.

(** Every edge carries the number of common neighbours in [B]. *)
Definition weights_from (B G : Graph) : Prop :=
  forall x y d, neighbors G x !! y = Some d ->
    d = {["weight" := size (common_neighbors B x y)]}.

(** [G.degree()]: the dict of degrees; a self-loop counts twice. *)
Definition degree_of (G : Graph) (u : string) : nat :=
  size (neighbors G u) + (if bool_decide (is_Some (neighbors G u !! u)) then 1 else 0).

Definition degree (G : Graph) : gmap string nat :=
  map_imap (fun u _ => Some (degree_of G u)) (node G).

(** [len(G.edges())]: every undirected edge once. *)
Definition number_of_edges (G : Graph) : nat :=
  Nat.div2 (map_fold (fun u _ acc => degree_of G u + acc) 0 (node G)).

(** [weight] of the edge [{u,v}], if the edge exists. *)
Definition edge_weight (G : Graph) (u v : string) : option nat :=
  d ← adj G !! u; e ← d !! v; e !! "weight".

Definition has_edge (G : Graph) (u v : string) : Prop :=
  is_Some (neighbors G u !! v).

(** The representation invariant of [networkx.Graph]: only nodes have an
    adjacency dict. *)
Definition well_formed (G : Graph) : Prop :=
  forall n, node G !! n = None -> adj G !! n = None.

End Nx.

(** ** Graph builder *)

Module Builder.
Import Nx.

(** [str(i)] of a list index. *)
Definition str (i : nat) : string := NilEmpty.string_of_uint (Nat.to_uint i).

(** The inner loop [for target in targets]. *)
Definition add_target (source : string) (B : Graph) (target : string) : Graph :=
  let B := if has_node B target then B
           else add_node target {["bipartite" := 1]} B in
  add_edge source target ∅ B.

(** One iteration of [for i, speakers in enumerate(speakerset)]. *)
Definition with_source (i : nat) (B : Graph) : Graph :=
  let source := str i in
  if has_node B source then B else add_node source {["bipartite" := 0]} B.

Definition add_segment (i : nat) (speakers : segment) (B : Graph) : Graph :=
  foldl (add_target (str i)) (with_source i B) speakers.

Fixpoint add_segments (i : nat) (speakerset : list segment) (B : Graph) : Graph :=
  match speakerset with
  | [] => B
  | speakers :: rest => add_segments (S i) rest (add_segment i speakers B)
  end.

Definition bipartite_graph (segs : list segment) : Graph :=
  add_segments 0 segs empty_graph.

(** [set(n for n,d in B.nodes(data=True) if d['bipartite']==0)]; the
    subscript raises [KeyError] on a node without the attribute. *)
Definition scene_nodes (B : Graph) : result (gset string) :=
  if decide (map_Forall (fun _ d => is_Some (d !! "bipartite")) (node B))
  then Ok (dom (filter (fun nd => nd.2 !! "bipartite" = Some 0) (node B)))
  else Raise KeyError.

(** [create_graph].  The call [nx.is_bipartite(B)] has no effect: its
    result is dropped. *)
Definition create_graph (segs : list segment) : result Graph :=
  let B := bipartite_graph segs in
  scene ← scene_nodes B;
  let person_nodes := nodes B ∖ scene in
  Ok (weighted_projected_graph B person_nodes).

(** The attribute dict a name gets when the loop first meets it: as the
    label of segment [i], or as a speaker of a segment. *)
Fixpoint first_mention (i : nat) (segs : list segment) (m : string)
  : option (gmap string nat) :=
  match segs with
  | [] => None
  | s :: rest =>
      if decide (m = str i) then Some {["bipartite" := 0]}
      else if decide (m ∈ s) then Some {["bipartite" := 1]}
      else first_mention (S i) rest m
  end.

(** The vocabulary of the specification. *)
Definition appears (c : string) (segs : list segment) : Prop :=
  exists s, s ∈ segs /\ c ∈ s.

Definition co_occurrences (u v : string) (segs : list segment) : nat :=
  length (filter (fun s => u ∈ s /\ v ∈ s) segs).

(** No character id is the decimal string of a segment index. *)
Definition no_label_clash (segs : list segment) : Prop :=
  forall i, i < length segs -> ~ appears (str i) segs.

End Builder.

(** ** networkx 1.x algorithms (unweighted, undirected) *)

Module NxAlgo.
Import Nx.

Definition nbrs (G : Graph) (u : string) : gset string := dom (neighbors G u).

Definition Qsum (l : list Q) : Q := foldr Qplus 0%Q l.

(** Breadth-first search from a source.  [seen] maps every node reached so
    far to its distance and its number of shortest paths from the source;
    [frontier] is the last level.  The search ends when a level is empty,
    after at most one round per node. *)
Definition paths_into (G : Graph) (seen : gmap string (nat * nat))
    (frontier : gset string) (w : string) : nat :=
  set_fold (fun v acc =>
      if bool_decide (w ∈ nbrs G v)
      then default 0 (snd <$> seen !! v) + acc else acc)
    0 frontier.

Fixpoint bfs (G : Graph) (fuel level : nat) (frontier : gset string)
    (seen : gmap string (nat * nat)) : gmap string (nat * nat) :=
  match fuel with
  | 0 => seen
  | S fuel' =>
      let next :=
        set_fold (fun v acc => nbrs G v ∪ acc) ∅ frontier ∖ dom seen in
      if decide (next = ∅) then seen
      else
        let seen' :=
          set_fold (fun w m => <[w := (S level, paths_into G seen frontier w)]> m)
            seen next in
        bfs G fuel' (S level) next seen'
  end.

Definition search (G : Graph) (s : string) : gmap string (nat * nat) :=
  bfs G (size (nodes G)) 0 {[s]} {[s := (0, 1)]}.

(** [nx.single_source_shortest_path_length(G, s)]. *)
Definition single_source_shortest_path_length (G : Graph) (s : string)
  : gmap string nat := fst <$> search G s.

Definition sum_values (m : gmap string nat) : nat :=
  map_fold (fun _ d acc => d + acc) 0 m.

(** [nx.closeness_centrality(G)] with [normalized=True]. *)
Definition closeness_of (G : Graph) (n : string) : Q :=
  let sp := single_source_shortest_path_length G n in
  let totsp := sum_values sp in
  if bool_decide (0 < totsp /\ 1 < size (nodes G)) then
    ((QofN (size sp) - 1) / QofN totsp
     * ((QofN (size sp) - 1) / (QofN (size (nodes G)) - 1)))%Q
  else 0%Q.

Definition closeness_centrality (G : Graph) : gmap string Q :=
  map_imap (fun n _ => Some (closeness_of G n)) (node G).

(** [nx.betweenness_centrality(G)] with [normalized=True]: the dependency
    of every source on [v], summed over the sources, then rescaled.  The
    arithmetic here is exact; networkx accumulates doubles, so two nodes
    with the same exact betweenness can get floats that differ in the last
    bit.  General statements about the table therefore take the values
    from the class [Centralities] below. *)
Definition pair_dependency (G : Graph) (s v t : string) : Q :=
  let from_s := search G s in
  let from_v := search G v in
  match from_s !! v, from_v !! t, from_s !! t with
  | Some (dsv, nsv), Some (dvt, nvt), Some (dst, nst) =>
      if bool_decide (dsv + dvt = dst)
      then (QofN (nsv * nvt) / QofN nst)%Q else 0%Q
  | _, _, _ => 0%Q
  end.

Definition dependency (G : Graph) (s v : string) : Q :=
  Qsum ((fun t => pair_dependency G s v t)
          <$> elements (nodes G ∖ {[s]} ∖ {[v]})).

Definition betweenness_of (G : Graph) (v : string) : Q :=
  let b := Qsum ((fun s => dependency G s v) <$> elements (nodes G ∖ {[v]})) in
  let n := size (nodes G) in
  if bool_decide (n <= 2) then b
  else (b * (1 / (QofN (n - 1) * QofN (n - 2))))%Q.

Definition betweenness_centrality (G : Graph) : gmap string Q :=
  map_imap (fun n _ => Some (betweenness_of G n)) (node G).

(** [nx.number_connected_components(G)]. *)
Definition reachable (G : Graph) (s : string) : gset string := dom (search G s).

Definition number_connected_components (G : Graph) : nat :=
  snd (set_fold (fun n '(seen, count) =>
         if bool_decide (n ∈ seen) then (seen, count)
         else (reachable G n ∪ seen, S count))
       (∅, 0) (nodes G)).

Definition is_connected (G : Graph) : result bool :=
  if bool_decide (nodes G = ∅) then Raise NetworkXPointlessConcept
  else Ok (bool_decide (number_connected_components G = 1)).

(** [nx.density(G)]. *)
Definition density (G : Graph) : result Q :=
  let n := size (nodes G) in
  let m := number_of_edges G in
  if bool_decide (m = 0 \/ n <= 1) then Ok 0%Q
  else Ok (QofN (2 * m) / (QofN n * (QofN n - 1)))%Q.

(** [nx.average_shortest_path_length(G)]. *)
Definition average_shortest_path_length (G : Graph) : result Q :=
  connected ← is_connected G;
  if negb connected then Raise NetworkXError
  else
    let n := size (nodes G) in
    let total :=
      set_fold (fun s acc =>
          sum_values (single_source_shortest_path_length G s) + acc)
        0 (nodes G) in
    truediv (QofN total) (QofN (n * (n - 1))).

(** The subgraph induced by a set of nodes, and
    [max(nx.connected_component_subgraphs(G), key=len)]. *)
Definition subgraph (G : Graph) (ns : gset string) : Graph :=
  mkGraph (filter (fun nd => nd.1 ∈ ns) (node G))
          ((fun d => filter (fun ve => ve.1 ∈ ns) d)
             <$> filter (fun nd => nd.1 ∈ ns) (adj G)).

Definition largest_component (G : Graph) : result Graph :=
  match elements (nodes G) with
  | [] => Raise ValueError
  | n0 :: rest =>
      Ok (subgraph G
            (foldl (fun best n =>
                      if bool_decide (size best < size (reachable G n))
                      then reachable G n else best)
               (reachable G n0) rest))
  end.

(** [nx.average_clustering(G)]. *)
Definition triangles_twice (G : Graph) (v : string) : nat :=
  let vs := nbrs G v ∖ {[v]} in
  set_fold (fun w acc => size (vs ∩ (nbrs G w ∖ {[w]})) + acc) 0 vs.

Definition clustering_of (G : Graph) (v : string) : Q :=
  let d := size (nbrs G v ∖ {[v]}) in
  let t := triangles_twice G v in
  if bool_decide (t = 0) then 0%Q
  else (QofN t / QofN (d * (d - 1)))%Q.

Definition average_clustering (G : Graph) : result Q :=
  let cs := (fun v => clustering_of G v) <$> elements (nodes G) in
  truediv (Qsum cs) (QofN (length cs)).

End NxAlgo.

(** ** pandas data frames *)

Module Pandas.

(** An index label of [self.centralities].  The frame is created with the
    entries of [self.personae] (one-entry dicts) as its index, and the code
    later addresses rows by character name. *)
Inductive label : Type :=
  | PersonaL (p : persona)
  | NameL (c : string).

#[global] Instance label_eq_dec : EqDecision label.
Proof. solve_decision. Defined.

(** A frame: the ordered column names and the rows.  A row is its index
    label and its cells; an absent cell is [NaN]. *)
Record DataFrame : Type := mkFrame {
  columns : list string;
  rows : list (label * gmap string Q)
}.

Definition index (df : DataFrame) : list label := fst <$> rows df.

(** The number of rows with a given label. *)
Definition rows_labelled (l : label) (df : DataFrame) : nat :=
  length (filter (fun r => r.1 = l) (rows df)).

(** [pd.DataFrame(index=labels)]. *)
Definition empty_frame (labels : list label) : DataFrame :=
  mkFrame [] ((fun l => (l, ∅)) <$> labels).

Definition add_column (col : string) (cols : list string) : list string :=
  if bool_decide (col ∈ cols) then cols else cols ++ [col].

Definition set_cell (col : string) (v : option Q) (cells : gmap string Q)
  : gmap string Q :=
  match v with
  | Some q => <[col := q]> cells
  | None => delete col cells
  end.

(** [df[col] = series], the series computed row by row from the frame. *)
Definition assign (col : string) (f : gmap string Q -> option Q)
    (df : DataFrame) : DataFrame :=
  mkFrame (add_column col (columns df))
          ((fun r => (r.1, set_cell col (f r.2) r.2)) <$> rows df).

(** [df[col] = v] with a scalar. *)
Definition assign_scalar (col : string) (v : Q) (df : DataFrame) : DataFrame :=
  assign col (fun _ => Some v) df.

(** What [df.loc[l, col] = v] writes: the cell of every row labelled [l];
    a label that is not in the index is appended as a new row whose other
    cells are [NaN] (setting with enlargement). *)
Definition loc_write (l : label) (col : string) (v : Q) (df : DataFrame)
  : DataFrame :=
  if bool_decide (l ∈ index df) then
    mkFrame (add_column col (columns df))
            ((fun r => if bool_decide (r.1 = l)
                       then (r.1, <[col := v]> r.2) else r) <$> rows df)
  else
    mkFrame (add_column col (columns df)) (rows df ++ [(l, {[col := v]})]).

(** A persona entry is a dict and has no hash; a name is a string. *)
Definition hashable (l : label) : bool :=
  match l with
  | PersonaL _ => false
  | NameL _ => true
  end.

(** [df.loc[l, col] = v]: the label is looked up in the hash table of the
    index, and building that table raises [TypeError] when the index
    holds a dict. *)
Definition all_hashable (df : DataFrame) : bool := forallb hashable (index df).

Definition loc_set (l : label) (col : string) (v : Q) (df : DataFrame)
  : result DataFrame :=
  if all_hashable df then Ok (loc_write l col v df) else Raise TypeError.

(** The values of a column, row by row. *)
Definition column (col : string) (df : DataFrame) : list (option Q) :=
  (fun r => r.2 !! col) <$> rows df.

Definition present (vs : list (option Q)) : list Q := omap id vs.

(** [series.max()]: the largest value that is not [NaN]. *)
Definition Qmaxb (a b : Q) : Q := if Qle_bool a b then b else a.

Definition series_max (vs : list (option Q)) : option Q :=
  match present vs with
  | [] => None
  | q :: qs => Some (foldl Qmaxb q qs)
  end.

(** [df[df[col] == x].index.tolist()]; [NaN] equals nothing. *)
Definition cell_eqb (c x : option Q) : bool :=
  match c, x with
  | Some a, Some b => Qeq_bool a b
  | _, _ => false
  end.

Definition index_where_eq (col : string) (x : option Q) (df : DataFrame)
  : list label :=
  fst <$> filter (fun r => cell_eqb (r.2 !! col) x = true) (rows df).

(** [series.rank(method='dense', ascending=False)]: the distinct values in
    descending order; the rank of a value is its position there. *)
Fixpoint insert_desc (x : Q) (l : list Q) : list Q :=
  match l with
  | [] => [x]
  | y :: l' =>
      if Qeq_bool x y then l
      else if Qle_bool y x then x :: l
      else y :: insert_desc x l'
  end.

Definition distinct_desc (vs : list Q) : list Q := foldr insert_desc [] vs.

Fixpoint position (x : Q) (l : list Q) : nat :=
  match l with
  | [] => 0
  | y :: l' => if Qeq_bool x y then 1 else S (position x l')
  end.

(** Strictly descending lists. *)
Fixpoint strictly_desc (l : list Q) : Prop :=
  match l with
  | [] => True
  | x :: l' => (forall y, y ∈ l' -> (y < x)%Q) /\ strictly_desc l'
  end.

Definition dense_rank (vs : list (option Q)) (v : Q) : nat :=
  position v (distinct_desc (present vs)).

Definition rank_dense_desc (col : string) (df : DataFrame)
  : gmap string Q -> option Q :=
  fun cells => (fun v => QofN (dense_rank (column col df) v)) <$> cells !! col.

(** [df[cols].sum(axis=1)]: [NaN] cells are skipped. *)
Definition row_sum (cols : list string) (cells : gmap string Q) : Q :=
  foldr Qplus 0%Q (present ((fun col => cells !! col) <$> cols)).

(** [str.endswith]. *)
Definition endswith (s suffix : string) : bool :=
  (String.length suffix <=? String.length s)%nat
  && String.eqb
       (String.substring (String.length s - String.length suffix)
                  (String.length suffix) s)
       suffix.

End Pandas.

(** ** DramaAnalyzer *)

Module Analyzer.
Import Nx NxAlgo Builder Pandas.

(** What [get_central_character] and the entries of [get_top_ranked_chars]
    hold: an index label, or the string ["SEVERAL"]. *)
Inductive answer : Type :=
  | Character (l : label)
  | SEVERAL.

(** A field of the dict built by [analyze_graph]: a number or ["NaN"]. *)
Inductive field : Type :=
  | Val (q : Q)
  | NaN.

(** [try: r  except: handler]. *)
Definition try_except {A} (r : result A) (handler : exn -> result A) : result A :=
  match r with
  | Ok a => Ok a
  | Raise e => handler e
  end.

(** [self.centralities = pd.DataFrame(index = [p for p in self.personae])]. *)
Definition init_centralities (personae : list persona) : DataFrame :=
  empty_frame (PersonaL <$> personae).

(** [for char, metric in d.items(): self.centralities.loc[char, col] = metric]. *)
Definition loc_set_all (col : string) (d : gmap string Q) (df : DataFrame)
  : result DataFrame :=
  foldl (fun r cm => df ← r; loc_set (NameL cm.1) col cm.2 df)
        (Ok df) (map_to_list d).

(** The frame that loop leaves when no assignment raises. *)
Definition loc_write_all (col : string) (d : gmap string Q) (df : DataFrame)
  : DataFrame :=
  foldl (fun df cm => loc_write (NameL cm.1) col cm.2 df) df (map_to_list d).

(** The two centralities that networkx computes in floating point.  A
    float is a rational number, so the values are in [Q]; which float a
    node gets is left to the library.  The dicts it returns have one entry
    per node. *)
Class Centralities : Type := {
  nx_betweenness_of : Graph -> string -> Q;
  nx_closeness_of : Graph -> string -> Q
}.

Definition nx_betweenness_centrality `{Centralities} (G : Graph)
  : gmap string Q :=
  map_imap (fun n _ => Some (nx_betweenness_of G n)) (node G).

Definition nx_closeness_centrality `{Centralities} (G : Graph)
  : gmap string Q :=
  map_imap (fun n _ => Some (nx_closeness_of G n)) (node G).

(** The centralities in exact arithmetic, without rounding. *)
#[global] Instance exact_centralities : Centralities := {|
  nx_betweenness_of := betweenness_of;
  nx_closeness_of := closeness_of
|}.

(** [analyze_characters]. *)
Definition analyze_characters `{Centralities} (G : Graph) (df : DataFrame)
  : result DataFrame :=
  let df := foldl (fun df metric => assign_scalar metric 0%Q df) df
              ["betweenness"; "degree"; "closeness"] in
  df ← loc_set_all "betweenness" (nx_betweenness_centrality G) df;
  df ← loc_set_all "degree" (QofN <$> degree G) df;
  loc_set_all "closeness" (nx_closeness_centrality G) df.

(** [Counter(list(chain.from_iterable(self.segments)))]. *)
Definition Counter (l : list string) : gmap string nat :=
  foldr (fun c m => <[c := S (default 0 (m !! c))]> m) ∅ l.

(** [get_character_frequencies]. *)
Definition get_character_frequencies (segs : list segment) (df : DataFrame)
  : result DataFrame :=
  let df := assign_scalar "frequency" 0%Q df in
  loc_set_all "frequency" (QofN <$> Counter (concat segs)) df.

Definition metrics : list string :=
  ["degree"; "closeness"; "betweenness"; "frequency"].

(** [get_character_ranks]. *)
Definition get_character_ranks (df : DataFrame) : DataFrame :=
  foldl (fun df metric =>
           assign (metric +:+ "_rank") (rank_dense_desc metric df) df)
    df metrics.

(** [get_centrality_ranks]; arithmetic on a [NaN] cell gives [NaN]. *)
Definition get_centrality_ranks (df : DataFrame) : DataFrame :=
  assign "avg_centrality_rank"
    (fun x =>
       d ← x !! "degree_rank";
       c ← x !! "closeness_rank";
       b ← x !! "betweenness_rank";
       Some ((d + c + b) / 3)%Q)
    df.

(** [get_central_characters]. *)
Definition get_central_characters (df : DataFrame) : DataFrame :=
  assign "composite_centrality"
    (fun x =>
       f ← x !! "frequency_rank";
       a ← x !! "avg_centrality_rank";
       Some ((f + a) / 2)%Q)
    df.

(** [series / n] on a float series: a zero divisor gives [NaN]. *)
Definition series_div (q : Q) (n : nat) : option Q :=
  if bool_decide (n = 0) then None
  else Some (q / QofN n)%Q.

(** The builtin [min] on floats: the first element, replaced whenever a
    later one compares smaller; every comparison with [NaN] is false. *)
Definition float_ltb (x y : option Q) : bool :=
  match x, y with
  | Some a, Some b => negb (Qle_bool b a)
  | _, _ => false
  end.

Definition py_min (l : list (option Q)) : result (option Q) :=
  match l with
  | [] => Raise ValueError
  | x :: l' => Ok (foldl (fun m y => if float_ltb y m then y else m) x l')
  end.

(** [get_central_character]. *)
Definition is_rank (c : string) : Prop := endswith c "rank" = true.

Definition rank_columns (df : DataFrame) : list string :=
  filter is_rank (columns df).

Definition avg_rank (df : DataFrame) (cells : gmap string Q) : option Q :=
  series_div (row_sum (rank_columns df) cells) (length (rank_columns df)).

Definition get_central_character (df : DataFrame) : result answer :=
  let avg_ranks := (fun r => avg_rank df r.2) <$> rows df in
  min_rank ← py_min avg_ranks;
  let central_chars :=
    fst <$> filter (fun r => cell_eqb (avg_rank df r.2) min_rank = true)
              (rows df) in
  match central_chars with
  | [c] => Ok (Character c)
  | _ => Ok SEVERAL
  end.

(** [get_top_ranked_chars]: the loop over the metrics, then the entry
    ['central']. *)
Definition top_ranked_entry (df : DataFrame) (metric : string) : answer :=
  let cent_max := series_max (column metric df) in
  let top_char := index_where_eq "closeness" cent_max df in
  match top_char with
  | [c] => Character c
  | _ => SEVERAL
  end.

Definition get_top_ranked_chars (df : DataFrame) : result (gmap string answer) :=
  let top_ranked :=
    foldl (fun d metric => <[metric := top_ranked_entry df metric]> d)
      ∅ metrics in
  central ← get_central_character df;
  Ok (<["central" := central]> top_ranked).

(** The mean of the five rank columns of a row, in the words of the
    specification; [cell] reads a cell that is not [NaN]. *)
Definition cell (cells : gmap string Q) (col : string) : Q :=
  default 0%Q (cells !! col).

Definition mean_rank (cells : gmap string Q) : Q :=
  ((cell cells "degree_rank" + cell cells "closeness_rank"
    + cell cells "betweenness_rank" + cell cells "frequency_rank"
    + cell cells "avg_centrality_rank") / 5)%Q.

(** No cell of the given columns is [NaN]. *)
Definition complete (cols : list string) (df : DataFrame) : bool :=
  forallb (fun r => forallb (fun col => bool_decide (is_Some (r.2 !! col))) cols)
    (rows df).

(** The rank columns: [get_character_ranks], [get_centrality_ranks] and
    [get_central_characters] in the order of the constructor. *)
Definition add_ranks (df : DataFrame) : DataFrame :=
  let df := get_character_ranks df in
  let df := get_centrality_ranks df in
  get_central_characters df.

Definition fill_centralities `{Centralities} (G : Graph)
    (segs : list segment) (df : DataFrame) : result DataFrame :=
  df ← analyze_characters G df;
  df ← get_character_frequencies segs df;
  Ok (add_ranks df).

(** The constructor of [DramaAnalyzer], up to the rank columns. *)
Definition analyze `{Centralities} (personae : list persona)
    (segs : list segment) : result (Graph * DataFrame) :=
  G ← create_graph segs;
  df ← fill_centralities G segs (init_centralities personae);
  Ok (G, df).

End Analyzer.

(** ** Graph metrics: [analyze_graph] *)

Module GraphMetrics.
Import Nx NxAlgo Analyzer.

(** The networkx calls that [analyze_graph] wraps in [try]. *)
Class Networkx : Type := {
  nx_density : Graph -> result Q;
  nx_average_shortest_path_length : Graph -> result Q;
  nx_max_connected_component_subgraph : Graph -> result Graph;
  nx_average_clustering : Graph -> result Q
}.

(** networkx 1.x, as modelled above. *)
Definition networkx1 : Networkx := {|
  nx_density := density;
  nx_average_shortest_path_length := average_shortest_path_length;
  nx_max_connected_component_subgraph := largest_component;
  nx_average_clustering := average_clustering
|}.

(** The builtin [max] on a sequence of ints. *)
Definition py_max (l : list nat) : result nat :=
  match l with
  | [] => Raise ValueError
  | x :: l' => Ok (foldl Nat.max x l')
  end.

(** [G.degree().values()]. *)
Definition degree_values (G : Graph) : list nat :=
  snd <$> map_to_list (degree G).

(** [try: values[k] = r  except: values[k] = "NaN"]. *)
Definition field_of (r : result Q) : field :=
  match r with
  | Ok q => Val q
  | Raise _ => NaN
  end.

Definition int (n : nat) : field := Val (QofN n).

(** The [avgpathlength] statement: the value, and [self.randomization]
    afterwards. *)
Definition avgpathlength `{Networkx} (G : Graph) (randomization : nat)
  : field * nat :=
  match nx_average_shortest_path_length G with
  | Ok q => (Val q, randomization)
  | Raise NetworkXError =>
      (field_of (giant ← nx_max_connected_component_subgraph G;
                 nx_average_shortest_path_length giant),
       50)
  | Raise _ => (NaN, randomization)
  end.

(** [analyze_graph]: the dict [values] and [self.randomization]. *)
Definition analyze_graph `{Networkx} (G : Graph) (randomization : nat)
  : gmap string field * nat :=
  let values : gmap string field := ∅ in
  let values := <["charcount" := int (size (nodes G))]> values in
  let values := <["edgecount" := int (number_of_edges G)]> values in
  let values :=
    <["maxdegree" :=
        field_of (m ← py_max (degree_values G); Ok (QofN m))]> values in
  let values :=
    <["avgdegree" :=
        field_of (truediv (QofN (foldr Nat.add 0 (degree_values G)))
                          (QofN (size (nodes G))))]> values in
  let values := <["density" := field_of (nx_density G)]> values in
  let '(apl, randomization) := avgpathlength G randomization in
  let values := <["avgpathlength" := apl]> values in
  let values :=
    <["clustering_coefficient" := field_of (nx_average_clustering G)]> values in
  let values :=
    <["connected_components" := int (number_connected_components G)]> values in
  (values, randomization).

End GraphMetrics.

(** ** Parsing: aliases and speakers (linacorpus) *)

Module Lina.

(** [create_charmap]: every alias is mapped to the name of its persona; a
    later assignment to the same key replaces the earlier one. *)
Definition create_charmap (personae : list persona) : gmap string string :=
  foldl (fun charmap person =>
           foldl (fun charmap alias => <[alias := person.1]> charmap)
                 charmap person.2)
        ∅ personae.

(** [[charmap[speaker] for speaker in speakers]]. *)
Fixpoint charnames (charmap : gmap string string) (speakers : list string)
  : result (list string) :=
  match speakers with
  | [] => Ok []
  | speaker :: rest =>
      match charmap !! speaker with
      | None => Raise KeyError
      | Some c => cs ← charnames charmap rest; Ok (c :: cs)
      end
  end.

(** [list(set(speakers))]. *)
Definition list_set (speakers : list string) : list string :=
  elements (pyset speakers).

(** The loop of [extract_speakers].  A parent segment is given by the
    tokens of the [who] attributes of its [sp] elements, in document
    order, after [replace] and [split]. *)
Fixpoint extract_speakers (charmap : gmap string string)
    (parentsegments : list (list string)) : result (list segment) :=
  match parentsegments with
  | [] => Ok []
  | segment :: rest =>
      speakers ← charnames charmap segment;
      segments ← extract_speakers charmap rest;
      Ok (list_set speakers :: segments)
  end.

(** The part of [parse_drama] that leads from the personae to the
    segments. *)
Definition parse_segments (personae : list persona)
    (parentsegments : list (list string)) : result (list segment) :=
  extract_speakers (create_charmap personae) parentsegments.

End Lina.

(** ** Dense descending rankings, in the words of the specification *)

Module Ranking.
Import Pandas.

(** Row [i] holds the value [v] and the rank [r]. *)
Definition ranked (values ranks : list (option Q)) (i : nat) (v : Q) (r : nat)
  : Prop :=
  values !! i = Some (Some v) /\ ranks !! i = Some (Some (QofN r)).

(** [ranks] is the dense descending ranking of [values]: a row without a
    value has no rank; the ranks are the numbers 1..d, for d the number of
    distinct values, all of them assigned; equal values have equal ranks,
    a lower value has a higher rank, the highest value has rank 1 and the
    next lower distinct value has the previous rank plus one. *)
Definition is_dense_ranking (values ranks : list (option Q)) : Prop :=
  let d := length (distinct_desc (present values)) in
  length ranks = length values
  /\ (forall i, values !! i = Some None -> ranks !! i = Some None)
  /\ (forall i v, values !! i = Some (Some v) ->
        exists r, ranked values ranks i v r /\ 1 <= r <= d)
  /\ (forall k, 1 <= k <= d -> exists i v, ranked values ranks i v k)
  /\ (forall i j v w r s,
        ranked values ranks i v r -> ranked values ranks j w s ->
        ((v == w)%Q -> r = s)
        /\ ((w < v)%Q -> r < s)
        /\ ((w < v)%Q ->
            (forall k u, values !! k = Some (Some u) ->
                         ~ ((w < u)%Q /\ (u < v)%Q)) ->
            s = S r))
  /\ (forall i v r, ranked values ranks i v r ->
        (forall k u, values !! k = Some (Some u) -> (u <= v)%Q) -> r = 1).

End Ranking.

(** * Theorems *)

(** ** Temporal dynamics: change rate and final scene size *)

Section TemporalFacts.
Import Temporal.

Lemma QofN_eq0 n : Qeq_bool (QofN n) 0 = true <-> n = 0.
Proof.
  unfold QofN. rewrite Qeq_bool_iff. unfold Qeq; simpl. lia.
Qed.

Lemma pyset_empty_iff (x : segment) : pyset x = ∅ <-> x = [].
Proof.
  unfold pyset. split.
  - destruct x as [|a x]; [done|]. intros H.
    assert (a ∈ (∅ : gset character)) by (rewrite <- H; set_solver).
    set_solver.
  - intros ->. done.
Qed.

Lemma union_size_0 (x y : segment) :
  size (pyset x ∪ pyset y) = 0 <-> both_empty x y.
Proof.
  unfold both_empty. rewrite size_empty_iff, <- !pyset_empty_iff.
  rewrite empty_union. unfold_leibniz. done.
Qed.

(** The integer expression of the source counts the symmetric difference. *)
Lemma cr_is_sym_diff (s t : gset character) :
  (Z.abs (Z.of_nat (size s) - Z.of_nat (size (s ∩ t)))
   + Z.abs (Z.of_nat (size (s ∩ t)) - Z.of_nat (size t)))%Z
  = Z.of_nat (size (sym_diff s t)).
Proof.
  unfold sym_diff.
  assert (Hs : size s = size (s ∖ t) + size (s ∩ t)).
  { rewrite <- size_union by set_solver. f_equal.
    apply set_eq; intros a. destruct (decide (a ∈ t)); set_solver. }
  assert (Ht : size t = size (t ∖ s) + size (s ∩ t)).
  { rewrite <- size_union by set_solver. f_equal.
    apply set_eq; intros a. destruct (decide (a ∈ s)); set_solver. }
  rewrite (size_union (s ∖ t) (t ∖ s)) by set_solver. lia.
Qed.

Lemma change_rate_defined x y :
  ~ both_empty x y ->
  exists q, change_rate x y = Ok q /\ (q == jaccard_distance (pyset x) (pyset y))%Q.
Proof.
  intros Hne. unfold change_rate, truediv.
  destruct (Qeq_bool (QofN (size (pyset x ∪ pyset y))) 0) eqn:E.
  - apply QofN_eq0, union_size_0 in E. contradiction.
  - eexists; split; [reflexivity|].
    unfold jaccard_distance. rewrite cr_is_sym_diff. reflexivity.
Qed.

Lemma change_rate_undefined x y :
  both_empty x y -> change_rate x y = Raise ZeroDivisionError.
Proof. intros [-> ->]. reflexivity. Qed.

Lemma zip_slices_cons a (l : list segment) :
  zip_longest (but_last (a :: l)) (from_1 (a :: l))
  = match l with
    | [] => []
    | b :: l' => (a, b) :: zip_longest (but_last l) (from_1 l)
    end.
Proof. destruct l; reflexivity. Qed.

Lemma zip_slices_lookup (segs : list segment) k x y :
  zip_longest (but_last segs) (from_1 segs) !! k = Some (x, y)
  <-> segs !! k = Some x /\ segs !! S k = Some y.
Proof.
  revert k. induction segs as [|a l IH]; intros k.
  - simpl. split; [done | intros [? ?]; done].
  - rewrite zip_slices_cons. destruct l as [|b l'].
    + split; [done|]. intros [_ H]. destruct k; done.
    + destruct k as [|k].
      * simpl. split; [intros [= -> ->]; done | intros [[= ->] [= ->]]; done].
      * change (((a, b) :: zip_longest (but_last (b :: l')) (from_1 (b :: l'))) !! S k)
          with (zip_longest (but_last (b :: l')) (from_1 (b :: l')) !! k).
        rewrite IH. done.
Qed.

Lemma zip_slices_length (segs : list segment) :
  length (zip_longest (but_last segs) (from_1 segs)) = length segs - 1.
Proof.
  induction segs as [|a l IH]; [done|].
  rewrite zip_slices_cons. destruct l as [|b l']; [done|].
  cbn [length]. rewrite IH. cbn [length]. lia.
Qed.

Lemma change_rate_loop_ok ps acc :
  (forall k x y, ps !! k = Some (x, y) -> ~ both_empty x y) ->
  exists qs, change_rate_loop ps acc = Ok (acc ++ qs)
    /\ length qs = length ps
    /\ forall k x y, ps !! k = Some (x, y) ->
         exists q, qs !! k = Some q /\ change_rate x y = Ok q.
Proof.
  revert acc. induction ps as [|[x y] ps IH]; intros acc Hall.
  - exists []. rewrite app_nil_r. repeat split; try done.
  - destruct (change_rate_defined x y (Hall 0 x y eq_refl)) as (q & Hq & _).
    destruct (IH (acc ++ [q])) as (qs & Hloop & Hlen & Hk).
    { intros k x' y' H. apply (Hall (S k)). exact H. }
    exists (q :: qs). simpl. rewrite Hq. simpl.
    change (change_rate_loop ps (acc ++ [q]) = Ok (acc ++ q :: qs) /\
            S (length qs) = S (length ps) /\
            forall k x0 y0, ((x, y) :: ps) !! k = Some (x0, y0) ->
              exists q0, (q :: qs) !! k = Some q0 /\ change_rate x0 y0 = Ok q0).
    rewrite Hloop, <- app_assoc. repeat split; [lia|].
    intros [|k] x' y' H.
    + injection H as <- <-. eauto.
    + apply Hk. exact H.
Qed.

Lemma change_rate_loop_raise ps acc k x y :
  ps !! k = Some (x, y) -> both_empty x y ->
  change_rate_loop ps acc = Raise ZeroDivisionError.
Proof.
  revert acc k. induction ps as [|[x' y'] ps IH]; intros acc k Hk He; [done|].
  simpl. destruct (change_rate x' y') as [q|e] eqn:E.
  - destruct k as [|k].
    + injection Hk as -> ->. rewrite change_rate_undefined in E; done.
    + apply (IH _ k); done.
  - destruct k as [|k]; simpl.
    + injection Hk as -> ->. rewrite change_rate_undefined in E by done.
      congruence.
    + unfold change_rate, truediv in E.
      destruct (Qeq_bool _ 0); congruence.
Qed.

End TemporalFacts.

Section TemporalClaims.
Import Temporal.

Lemma get_drama_change_rate_returns_iff (segs : list segment) :
  returns (get_drama_change_rate segs) <-> no_empty_pair segs.
Proof.
  unfold get_drama_change_rate. split.
  - intros [rates Hr] k x y Hx Hy He.
    pose proof (proj2 (zip_slices_lookup segs k x y) (conj Hx Hy)) as Hz.
    rewrite (change_rate_loop_raise _ [] k x y Hz He) in Hr. discriminate.
  - intros Hne.
    destruct (change_rate_loop_ok (zip_longest (but_last segs) (from_1 segs)) [])
      as (qs & Hq & _).
    + intros k x y Hz. apply zip_slices_lookup in Hz as [Hx Hy]. eauto.
    + eexists. exact Hq.
Qed.

Lemma get_final_scene_size_returns_iff (personae : list persona) (segs : list segment) :
  returns (get_final_scene_size personae segs) <-> segs <> [] /\ personae <> [].
Proof.
  unfold get_final_scene_size, last_segment, truediv.
  destruct segs as [|s segs].
  - split; [intros [? H]; discriminate | intros [H _]; congruence].
  - cbn [mbind result_bind bind].
    destruct (Qeq_bool (QofN (length personae)) 0) eqn:E.
    + apply QofN_eq0 in E. apply length_zero_iff_nil in E. subst.
      split; [intros [? H]; discriminate | intros [_ H]; congruence].
    + split; [|intros _; eexists; reflexivity].
      intros _. split; [discriminate|]. intros ->. discriminate.
Qed.

(** C7, as amended.  On every sequence of at least two segments in which no
    two neighbouring segments are both empty, [get_drama_change_rate] returns
    a list of N-1 rates whose k-th element is the Jaccard distance (size of the
    symmetric difference over size of the union) of segments k and k+1; the
    rate between {A,B} and {B,C} is 2/3. *)
Theorem change_rate_is_jaccard :
  (forall segs : list segment,
      2 <= length segs -> no_empty_pair segs ->
      exists rates,
        get_drama_change_rate segs = Ok rates
        /\ length rates = length segs - 1
        /\ forall k x y, segs !! k = Some x -> segs !! S k = Some y ->
             exists q, rates !! k = Some q
               /\ (q == jaccard_distance (pyset x) (pyset y))%Q)
  /\ get_drama_change_rate [["A"; "B"]; ["B"; "C"]] = Ok [(2 # 3)%Q].
Proof.
  split; [|vm_compute; reflexivity].
  intros segs _ Hne. unfold get_drama_change_rate.
  destruct (change_rate_loop_ok (zip_longest (but_last segs) (from_1 segs)) [])
    as (qs & Hq & Hlen & Hk).
  { intros k x y Hz. apply zip_slices_lookup in Hz as [Hx Hy]. eauto. }
  exists qs. split; [exact Hq|]. split.
  - rewrite Hlen. apply zip_slices_length.
  - intros k x y Hx Hy.
    destruct (Hk k x y) as (q & Hqk & Hcr).
    { apply zip_slices_lookup. done. }
    exists q. split; [done|].
    destruct (change_rate_defined x y (Hne k x y Hx Hy)) as (q' & Hq' & Hj).
    congruence.
Qed.

Lemma change_rate_is_jaccard_witness :
  exists rates,
    get_drama_change_rate [["A"; "B"]; ["B"; "C"]; []] = Ok rates
    /\ length rates = 2
    /\ forall k x y,
         [["A"; "B"]; ["B"; "C"]; []] !! k = Some x ->
         [["A"; "B"]; ["B"; "C"]; []] !! S k = Some y ->
         exists q, rates !! k = Some q
           /\ (q == jaccard_distance (pyset x) (pyset y))%Q.
Proof.
  apply (proj1 change_rate_is_jaccard [["A"; "B"]; ["B"; "C"]; []]).
  - simpl. lia.
  - intros [|[|[|k]]] x y Hx Hy [Ex Ey]; simpl in *; congruence.
Defined.

(** C7 as stated fails: two neighbouring empty segments make the whole
    computation raise, so no rate sequence is produced. *)
Lemma change_rate_two_empty_segments :
  2 <= length ([[]; []] : list segment)
  /\ get_drama_change_rate [[]; []] = Raise ZeroDivisionError.
Proof. split; [simpl; lia | reflexivity]. Qed.

(** C4, as amended.  [get_drama_change_rate] returns a value exactly on the
    segment sequences without two neighbouring empty segments, and
    [get_final_scene_size] returns a value exactly when the sequence and the
    personae list are both non-empty. *)
Theorem temporal_computations_domain :
  (forall segs : list segment,
      returns (get_drama_change_rate segs) <-> no_empty_pair segs)
  /\ (forall (personae : list persona) (segs : list segment),
      returns (get_final_scene_size personae segs)
      <-> segs <> [] /\ personae <> []).
Proof.
  split.
  - apply get_drama_change_rate_returns_iff.
  - apply get_final_scene_size_returns_iff.
Qed.

(** C4 as stated fails: with an empty universe, or on two consecutive empty
    segments, the computations raise [ZeroDivisionError]. *)
Lemma temporal_computations_raise :
  get_final_scene_size [] [["A"]] = Raise ZeroDivisionError
  /\ get_drama_change_rate [["A"]; []; []] = Raise ZeroDivisionError.
Proof. split; vm_compute; reflexivity. Qed.

End TemporalClaims.

(** ** Null-model sampler *)

Section SamplerFacts.
Import Sampler.

(** Fuel: the retry loop never uses more than 51 unfoldings. *)
Lemma retry_loop_fuel draw fuel j v n :
  j <= 50 -> 51 <= fuel + j ->
  retry_loop draw fuel j v n = retry_loop draw (51 - j) j v n.
Proof.
  revert j. induction fuel as [|fuel IH]; intros j Hj Hf; [lia|].
  replace (51 - j) with (S (50 - j)) by lia. cbn [retry_loop].
  destruct (_ ≫= _) as [w|e]; [reflexivity|].
  destruct (50 <? S j)%nat eqn:E; [reflexivity|].
  apply Nat.ltb_ge in E.
  rewrite IH by lia. reflexivity.
Qed.

(** Once the accumulator holds a string, every attempt raises [TypeError]
    and the sample ends in the exhausted branch. *)
Lemma retry_loop_str draw fuel j s n :
  j <= 50 -> 51 <= fuel + j ->
  retry_loop draw fuel j (Str s) n = (Str "NaN", n).
Proof.
  revert j. induction fuel as [|fuel IH]; intros j Hj Hf; [lia|].
  cbn [retry_loop].
  assert (Hr : exists e, (of_option (draw (S j)) NetworkXError
                          ≫= (fun x => py_add (Str s) x)) = Raise e).
  { destruct (draw (S j)); simpl; eauto. }
  destruct Hr as [e ->].
  destruct (50 <? S j)%nat eqn:E; [reflexivity|].
  apply Nat.ltb_ge in E. apply IH; lia.
Qed.

(** A sample whose 51 draws all fail stores the string. *)
Lemma retry_loop_exhausted draw fuel j v n :
  (forall i, 1 <= i <= 51 -> draw i = None) ->
  j <= 50 -> 51 <= fuel + j ->
  retry_loop draw fuel j v n = (Str "NaN", n).
Proof.
  intros Hd. revert j. induction fuel as [|fuel IH]; intros j Hj Hf; [lia|].
  cbn [retry_loop]. rewrite Hd by lia.
  cbn [of_option mbind result_bind bind].
  destruct (50 <? S j)%nat eqn:E; [reflexivity|].
  apply Nat.ltb_ge in E. apply IH; lia.
Qed.

Lemma sample_poisoned d i st : poisoned st -> poisoned (sample d i st).
Proof.
  intros [s Hs]. unfold sample. rewrite Hs, retry_loop_str by lia.
  destruct (clustering d i); eexists; reflexivity.
Qed.

Lemma samples_poisoned d count i st :
  poisoned st -> poisoned (samples d count i st).
Proof.
  revert i st. induction count as [|count IH]; intros i st H; [exact H|].
  cbn [samples]. apply IH, sample_poisoned, H.
Qed.

Lemma samples_split d m n i st :
  samples d (m + n) i st = samples d n (i + m) (samples d m i st).
Proof.
  revert i st. induction m as [|m IH]; intros i st.
  - cbn. f_equal. lia.
  - cbn [samples Nat.add]. rewrite IH. f_equal. lia.
Qed.

(** One exhausted sample decides the path-length output of the whole call,
    whatever the other samples draw. *)
Lemma randomize_graph_poisoned randomization d k :
  k < randomization ->
  (forall j, 1 <= j <= 51 -> pathlength d k j = None) ->
  fst (randomize_graph randomization d) = Str "NaN".
Proof.
  intros Hk Hd. unfold randomize_graph. cbn [fst].
  set (st0 := {| randcluster := 0; c := 0; randavgpathl := Num 0; a := 0 |}).
  replace randomization with (k + S (randomization - S k)) by lia.
  rewrite samples_split. cbn [samples].
  set (st := samples d k 0 st0).
  assert (Hp : poisoned (sample d (0 + k) st)).
  { unfold sample. rewrite retry_loop_exhausted by (auto; lia).
    destruct (clustering d (0 + k)); eexists; reflexivity. }
  destruct (samples_poisoned d (randomization - S k) (S (0 + k)) _ Hp) as [s Hs].
  rewrite Hs. reflexivity.
Qed.

(** C2: the code does not keep the contributions of the other samples.
    In the run above two samples succeed with 2 and 4, so the claimed output
    is 3; the code returns the string ["NaN"], and the success counter
    stays at 1. *)
Theorem randomize_graph_loses_contributions :
  fst (randomize_graph 3 one_exhausted_sample) = Str "NaN"
  /\ (exists q, snd (randomize_graph 3 one_exhausted_sample) = Num q
              /\ (q == 1 # 2)%Q)
  /\ a (samples one_exhausted_sample 3 0
          {| randcluster := 0; c := 0; randavgpathl := Num 0; a := 0 |}) = 1
  /\ randavgpathl (samples one_exhausted_sample 1 0
          {| randcluster := 0; c := 0; randavgpathl := Num 0; a := 0 |})
     = Num (0 + 2)%Q.
Proof.
  split; [vm_compute; reflexivity|].
  split; [eexists; split; [vm_compute; reflexivity | reflexivity]|].
  split; vm_compute; reflexivity.
Qed.

End SamplerFacts.

(** ** networkx graphs: the effect of the mutators *)

Section GraphFacts.
Import Nx.

Lemma neighbors_lookup G u v :
  neighbors G u !! v = (adj G !! u) ≫= (fun d => d !! v).
Proof. unfold neighbors. destruct (adj G !! u); reflexivity. Qed.

Lemma well_formed_empty : well_formed empty_graph.
Proof. intros n _. reflexivity. Qed.

Lemma add_node_node n a G m :
  node (add_node n a G) !! m
  = if decide (m = n)
    then Some (match node G !! n with Some old => a ∪ old | None => a end)
    else node G !! m.
Proof.
  unfold add_node. destruct (node G !! n) eqn:E; cbn [node];
    destruct (decide (m = n)) as [->|Hne]; simplify_map_eq; done.
Qed.

Lemma add_node_neighbors n a G :
  well_formed G -> forall u, neighbors (add_node n a G) u = neighbors G u.
Proof.
  intros Hwf u. unfold add_node, neighbors.
  destruct (node G !! n) eqn:E; cbn [adj]; [done|].
  destruct (decide (u = n)) as [->|Hne].
  - by rewrite lookup_insert_eq, (Hwf n E).
  - by rewrite lookup_insert_ne.
Qed.

Lemma add_node_wf n a G : well_formed G -> well_formed (add_node n a G).
Proof.
  intros Hwf m. rewrite add_node_node. case_decide; [done|].
  intros Hm. unfold add_node. destruct (node G !! n); cbn [adj]; [auto|].
  rewrite lookup_insert_ne by done. auto.
Qed.

Lemma touch_node n G m :
  node (touch n G) !! m
  = match node G !! m with
    | Some d => Some d
    | None => if decide (m = n) then Some ∅ else None
    end.
Proof.
  unfold touch. destruct (node G !! n) eqn:E; cbn [node].
  - destruct (decide (m = n)) as [->|Hne].
    + rewrite E. done.
    + destruct (node G !! m); done.
  - destruct (decide (m = n)) as [->|Hne]; simplify_map_eq; [done|].
    destruct (node G !! m); done.
Qed.

Lemma touch_neighbors n G :
  well_formed G -> forall u, neighbors (touch n G) u = neighbors G u.
Proof.
  intros Hwf u. unfold touch, neighbors.
  destruct (node G !! n) eqn:E; cbn [adj]; [done|].
  destruct (decide (u = n)) as [->|Hne].
  - by rewrite lookup_insert_eq, (Hwf n E).
  - by rewrite lookup_insert_ne.
Qed.

Lemma touch_wf n G : well_formed G -> well_formed (touch n G).
Proof.
  intros Hwf m. rewrite touch_node. destruct (node G !! m) eqn:E; [done|].
  case_decide; [done|]. intros _.
  unfold touch. destruct (node G !! n); cbn [adj]; [auto|].
  rewrite lookup_insert_ne by done. auto.
Qed.

Lemma add_edge_node u v a G m :
  node (add_edge u v a G) !! m
  = match node G !! m with
    | Some d => Some d
    | None => if decide (m = u \/ m = v) then Some ∅ else None
    end.
Proof.
  unfold add_edge. cbn [node]. rewrite !touch_node.
  destruct (node G !! m); [done|].
  destruct (decide (m = u)), (decide (m = v)); case_decide; naive_solver.
Qed.

Lemma add_edge_neighbors u v a G x y :
  well_formed G ->
  neighbors (add_edge u v a G) x !! y
  = if decide ((x = u /\ y = v) \/ (x = v /\ y = u))
    then Some (a ∪ default ∅ (neighbors G u !! v))
    else neighbors G x !! y.
Proof.
  intros Hwf. unfold add_edge.
  assert (Hn : forall w, neighbors (touch v (touch u G)) w = neighbors G w).
  { intros w. rewrite touch_neighbors by by apply touch_wf.
    by apply touch_neighbors. }
  rewrite !Hn. unfold neighbors at 1. cbn [adj].
  set (dd := a ∪ default ∅ (neighbors G u !! v)).
  destruct (decide (x = v)) as [->|Hxv].
  - rewrite lookup_insert_eq. cbn [default from_option id].
    destruct (decide (y = u)) as [->|Hyu].
    + rewrite lookup_insert_eq. case_decide; naive_solver.
    + rewrite lookup_insert_ne by done.
      destruct (decide (v = u)) as [->|Hvu].
      * rewrite lookup_insert_eq. cbn [default from_option id].
        rewrite lookup_insert_ne by done. case_decide; naive_solver.
      * rewrite lookup_insert_ne by done.
        fold (neighbors (touch v (touch u G)) v). rewrite Hn.
        case_decide; naive_solver.
  - rewrite lookup_insert_ne by done.
    destruct (decide (x = u)) as [->|Hxu].
    + rewrite lookup_insert_eq. cbn [default from_option id].
      destruct (decide (y = v)) as [->|Hyv].
      * rewrite lookup_insert_eq. case_decide; naive_solver.
      * rewrite lookup_insert_ne by done. case_decide; naive_solver.
    + rewrite lookup_insert_ne by done.
      fold (neighbors (touch v (touch u G)) x). rewrite Hn.
      case_decide; naive_solver.
Qed.

Lemma add_edge_wf u v a G : well_formed G -> well_formed (add_edge u v a G).
Proof.
  intros Hwf m. rewrite add_edge_node.
  destruct (node G !! m) eqn:E; [done|]. case_decide as Hm; [done|].
  intros _. unfold add_edge. cbn [adj].
  rewrite !lookup_insert_ne by naive_solver.
  apply touch_wf; [by apply touch_wf|].
  rewrite !touch_node, E.
  destruct (decide (m = u)), (decide (m = v)); naive_solver.
Qed.

End GraphFacts.

(** ** The bipartite graph of [create_graph] *)

Section BipartiteFacts.
Import Nx NxAlgo Builder.

Lemma elem_of_nbrs G x y : y ∈ nbrs G x <-> is_Some (neighbors G x !! y).
Proof. unfold nbrs. apply elem_of_dom. Qed.

Lemma has_node_true G n : has_node G n = true <-> is_Some (node G !! n).
Proof. unfold has_node. apply bool_decide_eq_true. Qed.

Lemma has_node_false G n : has_node G n = false <-> node G !! n = None.
Proof.
  unfold has_node. rewrite bool_decide_eq_false, eq_None_not_Some. done.
Qed.

Lemma add_target_wf src B t : well_formed B -> well_formed (add_target src B t).
Proof.
  intros Hwf. unfold add_target. apply add_edge_wf.
  destruct (has_node B t); [done|]. by apply add_node_wf.
Qed.

Lemma add_target_node src B t m :
  is_Some (node B !! src) ->
  node (add_target src B t) !! m
  = match node B !! m with
    | Some d => Some d
    | None => if decide (m = t) then Some {["bipartite" := 1]} else None
    end.
Proof.
  intros [ds Hs]. unfold add_target. rewrite add_edge_node.
  destruct (has_node B t) eqn:Ht.
  - apply has_node_true in Ht as [dt Ht].
    destruct (node B !! m) eqn:Em; [done|].
    repeat case_decide; naive_solver.
  - apply has_node_false in Ht. rewrite add_node_node, Ht.
    destruct (decide (m = t)) as [->|Hne]; [by rewrite Ht|].
    destruct (node B !! m) eqn:Em; [done|].
    case_decide; naive_solver.
Qed.

Lemma add_target_nbrs src B t x y :
  well_formed B ->
  y ∈ nbrs (add_target src B t) x
  <-> y ∈ nbrs B x \/ (x = src /\ y = t) \/ (x = t /\ y = src).
Proof.
  intros Hwf. rewrite !elem_of_nbrs. unfold add_target.
  set (B1 := if has_node B t then B else add_node t {["bipartite" := 1]} B).
  assert (Hwf1 : well_formed B1).
  { subst B1. destruct (has_node B t); [done|]. by apply add_node_wf. }
  assert (Hn : forall u, neighbors B1 u = neighbors B u).
  { intros u. subst B1. destruct (has_node B t); [done|].
    by apply add_node_neighbors. }
  rewrite add_edge_neighbors by done. rewrite !Hn.
  case_decide; naive_solver.
Qed.

Lemma add_targets_wf src s B :
  well_formed B -> well_formed (foldl (add_target src) B s).
Proof.
  revert B. induction s as [|t s IH]; intros B Hwf; [done|].
  cbn [foldl]. apply IH. by apply add_target_wf.
Qed.

Lemma add_targets_node src s B m :
  is_Some (node B !! src) ->
  node (foldl (add_target src) B s) !! m
  = match node B !! m with
    | Some d => Some d
    | None => if decide (m ∈ s) then Some {["bipartite" := 1]} else None
    end.
Proof.
  revert B. induction s as [|t s IH]; intros B Hs.
  - cbn [foldl]. destruct (node B !! m); [done|].
    case_decide as H; [by apply elem_of_nil in H | done].
  - cbn [foldl]. rewrite IH.
    2:{ rewrite add_target_node by done. destruct Hs as [d ->]. eauto. }
    rewrite add_target_node by done.
    destruct (node B !! m); [done|].
    destruct (decide (m = t)) as [->|Hne].
    + rewrite decide_True by apply list_elem_of_here. done.
    + destruct (decide (m ∈ s)) as [Hin|Hin].
      * rewrite decide_True by by apply list_elem_of_further. done.
      * rewrite decide_False; [done|]. rewrite elem_of_cons. naive_solver.
Qed.

Lemma add_targets_nbrs src s B x y :
  well_formed B ->
  y ∈ nbrs (foldl (add_target src) B s) x
  <-> y ∈ nbrs B x \/ (x = src /\ y ∈ s) \/ (y = src /\ x ∈ s).
Proof.
  revert B. induction s as [|t s IH]; intros B Hwf.
  - cbn [foldl]. rewrite !elem_of_nil. naive_solver.
  - cbn [foldl]. rewrite IH by by apply add_target_wf.
    rewrite add_target_nbrs by done. rewrite !elem_of_cons. naive_solver.
Qed.

Lemma with_source_wf i B : well_formed B -> well_formed (with_source i B).
Proof.
  intros Hwf. unfold with_source. destruct (has_node B (str i)); [done|].
  by apply add_node_wf.
Qed.

Lemma with_source_node i B m :
  node (with_source i B) !! m
  = match node B !! m with
    | Some d => Some d
    | None => if decide (m = str i) then Some {["bipartite" := 0]} else None
    end.
Proof.
  unfold with_source. destruct (has_node B (str i)) eqn:H.
  - apply has_node_true in H as [d H].
    destruct (node B !! m) eqn:E; [done|]. case_decide; naive_solver.
  - apply has_node_false in H. rewrite add_node_node, H.
    destruct (decide (m = str i)) as [->|Hne]; [by rewrite H|].
    destruct (node B !! m); done.
Qed.

Lemma with_source_neighbors i B u :
  well_formed B -> neighbors (with_source i B) u = neighbors B u.
Proof.
  intros Hwf. unfold with_source. destruct (has_node B (str i)); [done|].
  by apply add_node_neighbors.
Qed.

Lemma add_segment_eq i s B :
  add_segment i s B = foldl (add_target (str i)) (with_source i B) s.
Proof. reflexivity. Qed.

Lemma add_segment_wf i s B : well_formed B -> well_formed (add_segment i s B).
Proof.
  intros Hwf. rewrite add_segment_eq. by apply add_targets_wf, with_source_wf.
Qed.

Lemma add_segment_node i s B m :
  node (add_segment i s B) !! m
  = match node B !! m with
    | Some d => Some d
    | None => first_mention i [s] m
    end.
Proof.
  rewrite add_segment_eq, add_targets_node.
  2:{ rewrite with_source_node. destruct (node B !! str i); [eauto|].
      rewrite decide_True by done. eauto. }
  rewrite with_source_node. cbn [first_mention].
  destruct (node B !! m); [done|].
  destruct (decide (m = str i)); [done|].
  destruct (decide (m ∈ s)); done.
Qed.

Lemma add_segment_nbrs i s B x y :
  well_formed B ->
  y ∈ nbrs (add_segment i s B) x
  <-> y ∈ nbrs B x \/ (x = str i /\ y ∈ s) \/ (y = str i /\ x ∈ s).
Proof.
  intros Hwf. rewrite add_segment_eq, add_targets_nbrs by by apply with_source_wf.
  unfold nbrs. rewrite with_source_neighbors by done. done.
Qed.

End BipartiteFacts.

Section SegmentLoopFacts.
Import Nx NxAlgo Builder.

Lemma str_inj i j : str i = str j -> i = j.
Proof.
  unfold str. intros H.
  apply (f_equal NilEmpty.uint_of_string) in H.
  rewrite !NilEmpty.usu in H. injection H as H.
  by apply Unsigned.to_uint_inj.
Qed.

Lemma bipartite_attr_neq :
  ({["bipartite" := 1]} : gmap string nat) <> {["bipartite" := 0]}.
Proof.
  intros H. apply (f_equal (fun d => d !! "bipartite")) in H.
  by rewrite !lookup_singleton_eq in H.
Qed.

Lemma add_segments_wf i segs B :
  well_formed B -> well_formed (add_segments i segs B).
Proof.
  revert i B. induction segs as [|s segs IH]; intros i B Hwf; [done|].
  cbn [add_segments]. by apply IH, add_segment_wf.
Qed.

Lemma add_segments_node i segs B m :
  node (add_segments i segs B) !! m
  = match node B !! m with
    | Some d => Some d
    | None => first_mention i segs m
    end.
Proof.
  revert i B. induction segs as [|s segs IH]; intros i B.
  - cbn. destruct (node B !! m); done.
  - cbn [add_segments]. rewrite IH, add_segment_node.
    destruct (node B !! m); [done|].
    cbn [first_mention].
    destruct (decide (m = str i)); [done|].
    destruct (decide (m ∈ s)); done.
Qed.

Lemma add_segments_nbrs i segs B x y :
  well_formed B ->
  y ∈ nbrs (add_segments i segs B) x
  <-> y ∈ nbrs B x
      \/ exists k s, segs !! k = Some s
           /\ ((x = str (i + k) /\ y ∈ s) \/ (y = str (i + k) /\ x ∈ s)).
Proof.
  revert i B. induction segs as [|s segs IH]; intros i B Hwf.
  - cbn [add_segments]. split; [auto|]. intros [H|(k & s & H & _)]; done.
  - cbn [add_segments]. rewrite IH by by apply add_segment_wf.
    rewrite add_segment_nbrs by done. split.
    + intros [[H|H]|(k & s' & Hk & H)].
      * by left.
      * right. exists 0, s. rewrite Nat.add_0_r. done.
      * right. exists (S k), s'. rewrite Nat.add_succ_r. done.
    + intros [H|(k & s' & Hk & H)]; [by do 2 left|].
      destruct k as [|k].
      * injection Hk as <-. rewrite Nat.add_0_r in H. left. by right.
      * right. exists k, s'. rewrite Nat.add_succ_r in H. done.
Qed.

(** Who gets which attribute. *)
Lemma first_mention_scene i segs m :
  first_mention i segs m = Some {["bipartite" := 0]}
  <-> exists k, k < length segs /\ m = str (i + k)
        /\ forall j s, j < k -> segs !! j = Some s -> m ∉ s.
Proof.
  revert i. induction segs as [|s segs IH]; intros i.
  - cbn. split; [done|]. intros (k & Hk & _). lia.
  - cbn [first_mention length]. destruct (decide (m = str i)) as [->|Hne].
    + split; [|done]. intros _. exists 0. rewrite Nat.add_0_r.
      split; [lia|]. split; [done|]. intros; lia.
    + destruct (decide (m ∈ s)) as [Hin|Hin].
      * split.
        -- intros [=].
        -- intros (k & Hk & -> & Hb). destruct k as [|k].
           ++ by rewrite Nat.add_0_r in Hne.
           ++ exfalso. apply (Hb 0 s); [lia|done|done].
      * rewrite IH. split.
        -- intros (k & Hk & -> & Hb). exists (S k).
           split; [lia|]. split; [f_equal; lia|].
           intros [|j] s' Hj Hs'; [by injection Hs' as <-|].
           apply (Hb j); [lia|done].
        -- intros (k & Hk & -> & Hb). destruct k as [|k].
           ++ by rewrite Nat.add_0_r in Hne.
           ++ exists k. split; [lia|]. split; [f_equal; lia|].
              intros j s' Hj Hs'. apply (Hb (S j)); [lia|done].
Qed.

Lemma first_mention_person i segs m :
  first_mention i segs m = Some {["bipartite" := 1]}
  <-> exists j s, segs !! j = Some s /\ m ∈ s
        /\ forall k, k <= j -> m <> str (i + k).
Proof.
  revert i. induction segs as [|s segs IH]; intros i.
  - cbn. split; [done|]. intros (j & s & H & _). done.
  - cbn [first_mention]. destruct (decide (m = str i)) as [->|Hne].
    + split.
      * intros [=].
      * intros (j & s' & _ & _ & Hb). exfalso. apply (Hb 0); [lia|].
        by rewrite Nat.add_0_r.
    + destruct (decide (m ∈ s)) as [Hin|Hin].
      * split; [|done]. intros _. exists 0, s.
        split; [done|]. split; [done|].
        intros k Hk. replace k with 0 by lia. by rewrite Nat.add_0_r.
      * rewrite IH. split.
        -- intros (j & s' & Hj & Hm & Hb). exists (S j), s'.
           split; [done|]. split; [done|].
           intros [|k] Hk; [by rewrite Nat.add_0_r|].
           rewrite Nat.add_succ_r. apply (Hb k). lia.
        -- intros (j & s' & Hj & Hm & Hb). destruct j as [|j].
           ++ by injection Hj as <-.
           ++ exists j, s'. split; [done|]. split; [done|].
              intros k Hk. specialize (Hb (S k)).
              rewrite Nat.add_succ_r in Hb. apply Hb. lia.
Qed.

Lemma first_mention_cases i segs m :
  first_mention i segs m = None
  \/ first_mention i segs m = Some {["bipartite" := 0]}
  \/ first_mention i segs m = Some {["bipartite" := 1]}.
Proof.
  revert i. induction segs as [|s segs IH]; intros i; [by left|].
  cbn [first_mention]. repeat case_decide; auto.
Qed.

Lemma first_mention_None i segs m :
  first_mention i segs m = None
  <-> (forall k, k < length segs -> m <> str (i + k))
      /\ (forall s, s ∈ segs -> m ∉ s).
Proof.
  revert i. induction segs as [|s segs IH]; intros i.
  - cbn. split; [|done]. intros _. split; [intros; lia|].
    intros s H. by apply elem_of_nil in H.
  - cbn [first_mention length]. destruct (decide (m = str i)) as [->|Hne].
    + split; [done|]. intros [H _]. exfalso. apply (H 0); [lia|].
      by rewrite Nat.add_0_r.
    + destruct (decide (m ∈ s)) as [Hin|Hin].
      * split; [done|]. intros [_ H]. exfalso.
        apply (H s); [apply list_elem_of_here | done].
      * rewrite IH. split.
        -- intros [Hl Hs]. split.
           ++ intros [|k] Hk; [by rewrite Nat.add_0_r|].
              rewrite Nat.add_succ_r. apply Hl. lia.
           ++ intros s' Hs'. apply elem_of_cons in Hs' as [->|Hs']; auto.
        -- intros [Hl Hs]. split.
           ++ intros k Hk. specialize (Hl (S k)).
              rewrite Nat.add_succ_r in Hl. apply Hl. lia.
           ++ intros s' Hs'. apply Hs. by apply list_elem_of_further.
Qed.

End SegmentLoopFacts.

(** ** The weighted projection *)

Section ProjectionFacts.
Import Nx NxAlgo Builder.

Lemma elem_of_second_neighbors B u n :
  n ∈ second_neighbors B u
  <-> n <> u /\ exists nbr, nbr ∈ nbrs B u /\ n ∈ nbrs B nbr.
Proof.
  unfold second_neighbors. rewrite elem_of_difference, elem_of_singleton.
  fold (nbrs B u).
  assert (H : forall X : gset string,
            n ∈ set_fold (fun nbr acc => dom (neighbors B nbr) ∪ acc)
                  (∅ : gset string) X
            <-> exists nbr, nbr ∈ X /\ n ∈ nbrs B nbr).
  { apply (set_fold_ind_L
             (fun (acc : gset string) X =>
                n ∈ acc <-> exists nbr, nbr ∈ X /\ n ∈ nbrs B nbr)).
    - set_solver.
    - intros x X acc Hx IH. rewrite elem_of_union, IH. unfold nbrs.
      set_solver. }
  rewrite H. naive_solver.
Qed.

Lemma common_neighbors_comm B u v :
  common_neighbors B u v = common_neighbors B v u.
Proof. unfold common_neighbors. set_solver. Qed.

Lemma weights_from_add_edge B G u v :
  well_formed G -> weights_from B G ->
  weights_from B
    (add_edge u v {["weight" := size (common_neighbors B u v)]} G).
Proof.
  intros Hwf Hw x y d. rewrite add_edge_neighbors by done.
  case_decide as Hc; [|apply Hw].
  intros [= <-].
  assert (Hd : ({["weight" := size (common_neighbors B u v)]} : gmap string nat)
               ∪ default ∅ (neighbors G u !! v)
               = {["weight" := size (common_neighbors B u v)]}).
  { destruct (neighbors G u !! v) as [d|] eqn:E; cbn.
    - rewrite (Hw u v d E). apply map_eq. intros k.
      rewrite lookup_union. destruct (decide (k = "weight")) as [->|Hk].
      + by rewrite !lookup_singleton_eq.
      + by rewrite !lookup_singleton_ne.
    - apply map_union_empty. }
  rewrite Hd. destruct Hc as [[-> ->]|[-> ->]]; [done|].
  by rewrite (common_neighbors_comm B v u).
Qed.

(** One unfolding of the loop [for v in nbrs2]. *)
Lemma project_node_spec B u G :
  well_formed G -> weights_from B G -> is_Some (node G !! u) ->
  let G' := project_node B u G in
  well_formed G' /\ weights_from B G'
  /\ (forall m, node G' !! m
        = match node G !! m with
          | Some d => Some d
          | None => if decide (m ∈ second_neighbors B u) then Some ∅ else None
          end)
  /\ (forall x y, y ∈ nbrs G' x
        <-> y ∈ nbrs G x
            \/ (x = u /\ y ∈ second_neighbors B u)
            \/ (y = u /\ x ∈ second_neighbors B u)).
Proof.
  intros Hwf Hw Hu. unfold project_node.
  set (f := fun v G =>
         add_edge u v {["weight" := size (common_neighbors B u v)]} G).
  set (P := fun (G' : Graph) (X : gset string) =>
       well_formed G' /\ weights_from B G'
       /\ (forall m, node G' !! m
             = match node G !! m with
               | Some d => Some d
               | None => if decide (m ∈ X) then Some ∅ else None
               end)
       /\ (forall x y, y ∈ nbrs G' x
             <-> y ∈ nbrs G x \/ (x = u /\ y ∈ X) \/ (y = u /\ x ∈ X))).
  assert (H : forall X : gset string, P (set_fold f G X) X);
    [|exact (H (second_neighbors B u))].
  apply (set_fold_ind_L P); subst P f; cbn beta.
  - split; [done|]. split; [done|]. split.
    + intros m. destruct (node G !! m); [done|].
      by rewrite decide_False by set_solver.
    + set_solver.
  - intros v X G' Hv (Hwf' & Hw' & Hn' & He').
    split; [by apply add_edge_wf|].
    split; [by apply weights_from_add_edge|]. split.
    + intros m. rewrite add_edge_node, Hn'.
      destruct (node G !! m) eqn:Em; [done|].
      destruct (decide (m ∈ X)) as [Hm|Hm].
      * by rewrite decide_True by set_solver.
      * destruct (decide (m = u)) as [->|Hmu].
        { destruct Hu as [d Hd]. congruence. }
        destruct (decide (m = v)) as [->|Hmv].
        -- rewrite decide_True by auto. by rewrite decide_True by set_solver.
        -- rewrite decide_False by naive_solver.
           by rewrite decide_False by set_solver.
    + intros x y. rewrite elem_of_nbrs, add_edge_neighbors by done.
      case_decide as Hc.
      * split; [|eauto]. intros _. set_solver.
      * rewrite <- elem_of_nbrs, He'. set_solver.
Qed.

Lemma copy_nodes_spec B ns :
  let G0 := copy_nodes B ns in
  well_formed G0
  /\ (forall m, node G0 !! m
        = if decide (m ∈ ns) then Some (default ∅ (node B !! m)) else None)
  /\ (forall x, neighbors G0 x = ∅).
Proof.
  unfold copy_nodes.
  set (f := fun n G => add_node n (default ∅ (node B !! n)) G).
  set (P := fun (G0 : Graph) (X : gset string) =>
       well_formed G0
       /\ (forall m, node G0 !! m
             = if decide (m ∈ X) then Some (default ∅ (node B !! m)) else None)
       /\ (forall x, neighbors G0 x = ∅)).
  assert (H : forall X : gset string, P (set_fold f empty_graph X) X);
    [|exact (H ns)].
  apply (set_fold_ind_L P); subst P f; cbn beta.
  - split; [apply well_formed_empty|]. split; [|done].
    intros m. by rewrite decide_False by set_solver.
  - intros n X G0 Hn (Hwf & Hnode & Hadj).
    split; [by apply add_node_wf|]. split.
    + intros m. rewrite add_node_node, !Hnode.
      rewrite (decide_False (P := n ∈ X)) by done.
      destruct (decide (m = n)) as [->|Hne].
      * by rewrite decide_True by set_solver.
      * destruct (decide (m ∈ X)).
        -- by rewrite decide_True by set_solver.
        -- by rewrite decide_False by set_solver.
    + intros x. by rewrite add_node_neighbors.
Qed.

(** The projected graph, for any [B] and any node set. *)
Lemma weighted_projected_graph_spec B ns :
  let G := weighted_projected_graph B ns in
  well_formed G /\ weights_from B G
  /\ (forall m, m ∈ ns -> node G !! m = Some (default ∅ (node B !! m)))
  /\ (forall m, m ∈ nodes G
        <-> m ∈ ns \/ exists u, u ∈ ns /\ m ∈ second_neighbors B u)
  /\ (forall x y, y ∈ nbrs G x
        <-> (x ∈ ns /\ y ∈ second_neighbors B x)
            \/ (y ∈ ns /\ x ∈ second_neighbors B y)).
Proof.
  unfold weighted_projected_graph.
  destruct (copy_nodes_spec B ns) as (Hwf0 & Hn0 & Ha0).
  set (G0 := copy_nodes B ns) in *.
  assert (H : forall X : gset string, X ⊆ ns ->
    let G := set_fold (project_node B) G0 X in
    well_formed G /\ weights_from B G
    /\ (forall m, m ∈ ns -> node G !! m = Some (default ∅ (node B !! m)))
    /\ (forall m, m ∈ nodes G
          <-> m ∈ ns \/ exists u, u ∈ X /\ m ∈ second_neighbors B u)
    /\ (forall x y, y ∈ nbrs G x
          <-> (x ∈ X /\ y ∈ second_neighbors B x)
              \/ (y ∈ X /\ x ∈ second_neighbors B y))).
  { apply (set_fold_ind_L
      (fun (G : Graph) (X : gset string) => X ⊆ ns ->
         well_formed G /\ weights_from B G
         /\ (forall m, m ∈ ns -> node G !! m = Some (default ∅ (node B !! m)))
         /\ (forall m, m ∈ nodes G
               <-> m ∈ ns \/ exists u, u ∈ X /\ m ∈ second_neighbors B u)
         /\ (forall x y, y ∈ nbrs G x
               <-> (x ∈ X /\ y ∈ second_neighbors B x)
                   \/ (y ∈ X /\ x ∈ second_neighbors B y)))).
    - intros _. split; [done|]. split.
      { intros x y d. by rewrite Ha0, lookup_empty. }
      split; [intros m Hm; by rewrite Hn0, decide_True|]. split.
      + intros m. unfold nodes. rewrite elem_of_dom, Hn0.
        case_decide; split; try naive_solver; set_solver.
      + intros x y. unfold nbrs. rewrite Ha0. set_solver.
    - intros u X G Hu IH Hsub.
      destruct IH as (Hwf & Hw & Hns & Hnodes & Hnb); [set_solver|].
      assert (Huns : u ∈ ns) by set_solver.
      destruct (project_node_spec B u G Hwf Hw) as (Hwf' & Hw' & Hn' & He').
      { rewrite Hns by done. eauto. }
      split; [done|]. split; [done|]. split.
      + intros m Hm. rewrite Hn', Hns by done. done.
      + split.
        * intros m. unfold nodes. rewrite elem_of_dom, Hn'.
          specialize (Hnodes m). unfold nodes in Hnodes.
          rewrite elem_of_dom in Hnodes.
          destruct (node G !! m) eqn:Em.
          -- split; [|eauto]. intros _.
             destruct (proj1 Hnodes) as [?|(w & ? & ?)]; [eauto|auto|].
             right. exists w. set_solver.
          -- case_decide as Hm.
             ++ split; [|eauto]. intros _. right. exists u. set_solver.
             ++ split; [intros [? [=]]|]. intros [Hm'|(w & Hw1 & Hw2)].
                ** destruct (proj2 Hnodes) as [? [=]]. auto.
                ** apply elem_of_union in Hw1 as [Hw1|Hw1].
                   --- apply elem_of_singleton in Hw1 as ->. done.
                   --- destruct (proj2 Hnodes) as [? [=]]. eauto.
        * intros x y. rewrite He', Hnb. set_solver. }
  apply H. done.
Qed.

End ProjectionFacts.

(** ** [create_graph] *)

Section CreateGraphFacts.
Import Nx NxAlgo Builder.

Lemma bipartite_graph_wf segs : well_formed (bipartite_graph segs).
Proof. apply add_segments_wf, well_formed_empty. Qed.

Lemma bipartite_graph_node segs m :
  node (bipartite_graph segs) !! m = first_mention 0 segs m.
Proof. unfold bipartite_graph. by rewrite add_segments_node. Qed.

Lemma bipartite_graph_nbrs segs x y :
  y ∈ nbrs (bipartite_graph segs) x
  <-> exists k s, segs !! k = Some s
        /\ ((x = str k /\ y ∈ s) \/ (y = str k /\ x ∈ s)).
Proof.
  unfold bipartite_graph.
  rewrite add_segments_nbrs by apply well_formed_empty.
  split.
  - intros [H|H]; [|done]. unfold nbrs, neighbors in H. set_solver.
  - auto.
Qed.

Lemma scene_nodes_bipartite segs :
  exists scene, scene_nodes (bipartite_graph segs) = Ok scene
    /\ forall n, n ∈ scene
         <-> first_mention 0 segs n = Some {["bipartite" := 0]}.
Proof.
  unfold scene_nodes. rewrite decide_True.
  - eexists. split; [reflexivity|]. intros n.
    rewrite elem_of_dom. unfold is_Some.
    setoid_rewrite map_lookup_filter_Some. cbn [snd].
    setoid_rewrite bipartite_graph_node. split.
    + intros (d & Hd & Hb).
      destruct (first_mention_cases 0 segs n) as [H|[H|H]];
        rewrite H in Hd; [done|done|].
      injection Hd as <-. by rewrite lookup_singleton_eq in Hb.
    + intros H. eexists. split; [exact H|]. by rewrite lookup_singleton_eq.
  - intros n d. rewrite bipartite_graph_node. intros Hd.
    destruct (first_mention_cases 0 segs n) as [H|[H|H]];
      rewrite H in Hd; [done| |]; injection Hd as <-;
      rewrite lookup_singleton_eq; eauto.
Qed.

(** The builder never raises. *)
Lemma create_graph_returns segs : returns (create_graph segs).
Proof.
  unfold create_graph.
  destruct (scene_nodes_bipartite segs) as (scene & -> & _).
  eexists. reflexivity.
Qed.

(** The node set handed to the projection. *)
Lemma create_graph_person_nodes segs :
  exists persons : gset string,
    create_graph segs = Ok (weighted_projected_graph (bipartite_graph segs) persons)
    /\ forall n, n ∈ persons
         <-> first_mention 0 segs n = Some {["bipartite" := 1]}.
Proof.
  unfold create_graph.
  destruct (scene_nodes_bipartite segs) as (scene & -> & Hs).
  eexists. split; [reflexivity|]. intros n.
  rewrite elem_of_difference, Hs. unfold nodes.
  rewrite elem_of_dom, bipartite_graph_node.
  destruct (first_mention_cases 0 segs n) as [H|[H|H]]; rewrite H.
  - split; [intros [[? [=]] _]|done].
  - split; [intros [_ Hn]; done|done].
  - split; [done|]. intros _. split; [eauto|done].
Qed.

End CreateGraphFacts.

Section NoClashFacts.
Import Nx NxAlgo Builder.

Lemma appears_lookup c segs :
  appears c segs <-> exists k s, segs !! k = Some s /\ c ∈ s.
Proof.
  unfold appears. split.
  - intros (s & Hs & Hc). apply list_elem_of_lookup in Hs as [k Hk]. eauto.
  - intros (k & s & Hk & Hc). exists s. split; [|done].
    apply list_elem_of_lookup. eauto.
Qed.

Lemma no_clash_neq segs c k :
  no_label_clash segs -> appears c segs -> k < length segs -> c <> str k.
Proof. intros Hnc Hc Hk ->. by apply (Hnc k). Qed.

Lemma person_iff_appears segs n :
  no_label_clash segs ->
  first_mention 0 segs n = Some {["bipartite" := 1]} <-> appears n segs.
Proof.
  intros Hnc. rewrite first_mention_person, appears_lookup. split.
  - intros (j & s & Hj & Hn & _). eauto.
  - intros (j & s & Hj & Hn). exists j, s. split; [done|]. split; [done|].
    intros k Hk. cbn [Nat.add]. apply (no_clash_neq segs); [done| |].
    + apply appears_lookup. eauto.
    + apply lookup_lt_Some in Hj. lia.
Qed.

Lemma nbrs_of_person segs u y :
  no_label_clash segs -> appears u segs ->
  y ∈ nbrs (bipartite_graph segs) u
  <-> exists k s, segs !! k = Some s /\ y = str k /\ u ∈ s.
Proof.
  intros Hnc Hu. rewrite bipartite_graph_nbrs. split.
  - intros (k & s & Hk & [[-> _]|[-> Hus]]); [|eauto].
    exfalso. apply (Hnc k); [by apply lookup_lt_Some in Hk | done].
  - intros (k & s & Hk & -> & Hus). eauto 10.
Qed.

Lemma nbrs_of_label segs k s y :
  no_label_clash segs -> segs !! k = Some s ->
  y ∈ nbrs (bipartite_graph segs) (str k) <-> y ∈ s.
Proof.
  intros Hnc Hk. rewrite bipartite_graph_nbrs. split.
  - intros (k' & s' & Hk' & [[Heq Hy]|[-> Hin]]).
    + apply str_inj in Heq as <-. congruence.
    + exfalso. apply (Hnc k); [by apply lookup_lt_Some in Hk|].
      apply appears_lookup. eauto.
  - intros Hy. eauto 10.
Qed.

Lemma second_neighbors_of_person segs u v :
  no_label_clash segs -> appears u segs ->
  v ∈ second_neighbors (bipartite_graph segs) u
  <-> v <> u /\ exists s, s ∈ segs /\ u ∈ s /\ v ∈ s.
Proof.
  intros Hnc Hu. rewrite elem_of_second_neighbors.
  setoid_rewrite (nbrs_of_person segs u); [|done|done].
  split.
  - intros (Hne & nbr & (k & s & Hk & -> & Hus) & Hv).
    split; [done|]. exists s.
    rewrite (nbrs_of_label segs k s) in Hv by done.
    split; [|done]. apply list_elem_of_lookup. eauto.
  - intros (Hne & s & Hs & Hus & Hvs). split; [done|].
    apply list_elem_of_lookup in Hs as [k Hk].
    exists (str k). split; [eauto|].
    by rewrite (nbrs_of_label segs k s).
Qed.

Lemma common_neighbors_of_persons segs u v n :
  no_label_clash segs -> appears u segs -> appears v segs ->
  n ∈ common_neighbors (bipartite_graph segs) u v
  <-> exists k s, segs !! k = Some s /\ n = str (0 + k) /\ (u ∈ s /\ v ∈ s).
Proof.
  intros Hnc Hu Hv. unfold common_neighbors. rewrite elem_of_intersection.
  fold (nbrs (bipartite_graph segs) u) (nbrs (bipartite_graph segs) v).
  rewrite !nbrs_of_person by done. cbn [Nat.add]. split.
  - intros [(k & s & Hk & -> & Hus) (k' & s' & Hk' & Heq & Hvs)].
    apply str_inj in Heq as <-. assert (s' = s) as -> by congruence.
    eauto 10.
  - intros (k & s & Hk & -> & Hus & Hvs). eauto 10.
Qed.

(** Counting labels is counting segments. *)
Lemma size_label_set (P : list string -> Prop) `{!forall s, Decision (P s)}
    (segs : list segment) i (X : gset string) :
  (forall n, n ∈ X
     <-> exists k s, segs !! k = Some s /\ n = str (i + k) /\ P s) ->
  size X = length (filter P segs).
Proof.
  revert i X. induction segs as [|s segs IH]; intros i X HX.
  - cbn. apply size_empty_iff. intros n. rewrite HX. split.
    + by intros (k & s & Hk & _).
    + set_solver.
  - assert (HX' : forall n, n ∈ X ∖ {[str i]}
              <-> exists k s', segs !! k = Some s' /\ n = str (S i + k) /\ P s').
    { intros n. rewrite elem_of_difference, elem_of_singleton, HX. split.
      - intros [(k & s' & Hk & -> & HP) Hne]. destruct k as [|k].
        + by rewrite Nat.add_0_r in Hne.
        + exists k, s'. split; [done|]. split; [f_equal; lia|done].
      - intros (k & s' & Hk & -> & HP). split.
        + exists (S k), s'. split; [done|]. split; [f_equal; lia|done].
        + intros Heq. apply str_inj in Heq. lia. }
    specialize (IH (S i) _ HX'). rewrite filter_cons.
    destruct (decide (P s)) as [HP|HP].
    + assert (Hin : str i ∈ X).
      { apply HX. exists 0, s. by rewrite Nat.add_0_r. }
      cbn [length]. rewrite <- IH.
      assert (Hsz : size X
                    = size ({[str i]} : gset string) + size (X ∖ {[str i]})).
      { rewrite <- size_union by set_solver. f_equal. apply set_eq.
        intros n. destruct (decide (n = str i)); set_solver. }
      rewrite Hsz, size_singleton. done.
    + rewrite <- IH. f_equal. apply set_eq. intros n.
      rewrite elem_of_difference, elem_of_singleton. split; [|naive_solver].
      intros Hn. split; [done|]. intros ->.
      apply HX in Hn as (k & s' & Hk & Heq & HP').
      apply str_inj in Heq. destruct k; [|lia].
      injection Hk as <-. done.
Qed.

Lemma size_common_neighbors segs u v :
  no_label_clash segs -> appears u segs -> appears v segs ->
  size (common_neighbors (bipartite_graph segs) u v) = co_occurrences u v segs.
Proof.
  intros Hnc Hu Hv. unfold co_occurrences.
  apply (size_label_set (fun s => u ∈ s /\ v ∈ s) segs 0).
  intros n. by apply common_neighbors_of_persons.
Qed.

End NoClashFacts.

Section BuilderClaims.
Import Nx NxAlgo Builder.

Lemma has_edge_nbrs G u v : has_edge G u v <-> v ∈ nbrs G u.
Proof. unfold has_edge. by rewrite elem_of_nbrs. Qed.

Lemma edge_weight_neighbors G u v :
  edge_weight G u v = (neighbors G u !! v) ≫= (fun e => e !! "weight").
Proof.
  unfold edge_weight. rewrite neighbors_lookup.
  destruct (adj G !! u); reflexivity.
Qed.

(** Without label clashes the builder returns the interaction graph of the
    specification. *)
Lemma create_graph_correct segs :
  no_label_clash segs ->
  exists G, create_graph segs = Ok G
    /\ (forall c, c ∈ nodes G <-> appears c segs)
    /\ (forall u v, has_edge G u v
          <-> u <> v /\ exists s, s ∈ segs /\ u ∈ s /\ v ∈ s)
    /\ (forall u v, has_edge G u v
          -> edge_weight G u v = Some (co_occurrences u v segs)).
Proof.
  intros Hnc.
  destruct (create_graph_person_nodes segs) as (persons & HG & Hp).
  eexists. split; [exact HG|].
  set (B := bipartite_graph segs) in *.
  destruct (weighted_projected_graph_spec B persons)
    as (Hwf & Hw & _ & Hnodes & Hnb).
  set (G := weighted_projected_graph B persons) in *.
  assert (Hpa : forall n, n ∈ persons <-> appears n segs).
  { intros n. rewrite Hp. by apply person_iff_appears. }
  assert (Hedge : forall u v, v ∈ nbrs G u
            <-> u <> v /\ exists s, s ∈ segs /\ u ∈ s /\ v ∈ s).
  { intros u v. rewrite Hnb. split.
    - intros [[Hu Hv]|[Hv Hu]].
      + apply Hpa in Hu.
        apply (second_neighbors_of_person segs u v) in Hv; [|done|done].
        naive_solver.
      + apply Hpa in Hv.
        apply (second_neighbors_of_person segs v u) in Hu; [|done|done].
        naive_solver.
    - intros (Hne & s & Hs & Hus & Hvs). left.
      assert (Hu : appears u segs) by (exists s; done).
      split; [by apply Hpa|].
      apply second_neighbors_of_person; [done|done|]. naive_solver. }
  split; [|split].
  - intros c. rewrite Hnodes, Hpa. split; [|auto].
    intros [Hc|(u & Hu & Hc)]; [done|].
    apply Hpa in Hu.
    apply (second_neighbors_of_person segs u c) in Hc; [|done|done].
    destruct Hc as (_ & s & Hs & _ & Hcs). by exists s.
  - intros u v. rewrite has_edge_nbrs. apply Hedge.
  - intros u v Huv. rewrite edge_weight_neighbors.
    destruct Huv as [d Hd]. rewrite Hd. cbn.
    rewrite (Hw u v d Hd), lookup_singleton_eq. f_equal.
    assert (Hin : v ∈ nbrs G u) by (apply elem_of_nbrs; eauto).
    apply Hedge in Hin as (_ & s & Hs & Hus & Hvs).
    apply size_common_neighbors; [done| |]; by exists s.
Qed.

(** How the builder classifies the node named [str i]. *)
Lemma label_classification segs i :
  i < length segs ->
  (node (bipartite_graph segs) !! str i = Some {["bipartite" := 0]}
   <-> forall j s, j < i -> segs !! j = Some s -> str i ∉ s)
  /\ (node (bipartite_graph segs) !! str i = Some {["bipartite" := 1]}
      <-> exists j s, j < i /\ segs !! j = Some s /\ str i ∈ s).
Proof.
  intros Hi. rewrite bipartite_graph_node. split.
  - rewrite first_mention_scene. cbn [Nat.add]. split.
    + intros (k & Hk & Heq & Hb). apply str_inj in Heq as <-. exact Hb.
    + intros Hb. exists i. done.
  - rewrite first_mention_person. cbn [Nat.add]. split.
    + intros (j & s & Hj & Hin & Hb). exists j, s.
      split; [|done]. destruct (decide (j < i)); [done|].
      exfalso. apply (Hb i); [lia|done].
    + intros (j & s & Hj & Hs & Hin). exists j, s.
      split; [done|]. split; [done|].
      intros k Hk Heq. apply str_inj in Heq. lia.
Qed.

End BuilderClaims.

Section BuilderVerdicts.
Import Nx NxAlgo Builder.

(** C5: the code misses the claim when a character id is the decimal string
    of a segment index.  The play with the single segment {"0"} has the
    character "0", yet its interaction graph has no node at all; and in the
    play [{"0","A"}, {"0","A"}] the graph gets the node "1", which is no
    character but the label of the second segment. *)
Theorem create_graph_label_clash :
  (exists G, create_graph [["0"]] = Ok G
     /\ elements (nodes G) = []
     /\ appears "0" [["0"]])
  /\ (exists G, create_graph [["0"; "A"]; ["0"; "A"]] = Ok G
        /\ "1" ∈ nodes G
        /\ ~ appears "1" [["0"; "A"]; ["0"; "A"]]
        /\ edge_weight G "A" "1" = Some 1).
Proof.
  split.
  - eexists. split; [vm_compute; reflexivity|].
    split; [vm_compute; reflexivity|].
    exists ["0"]. split; apply list_elem_of_here.
  - eexists. split; [vm_compute; reflexivity|].
    split; [|split].
    + apply elem_of_elements. vm_compute. apply list_elem_of_here.
    + intros (s & Hs & Hc).
      repeat (apply elem_of_cons in Hs as [->|Hs];
              [repeat (apply elem_of_cons in Hc as [Hc|Hc]; [discriminate|]);
               by apply elem_of_nil in Hc|]).
      by apply elem_of_nil in Hs.
    + vm_compute. reflexivity.
Qed.

(** C10, as amended.  The node named [str i] of a segment index [i < N] is
    shared by segment [i] and by the character of that name: it is classified
    as a segment node exactly when the name occurs in no segment before
    segment [i], and as a character node exactly when it occurs in one.  When
    no character id is a decimal segment index, the builder returns the graph
    whose nodes are the characters that appear in a segment, with an edge
    between two distinct characters iff they share a segment, weighted by
    the number of segments that contain both. *)
Theorem label_clash_behaviour :
  (forall (segs : list segment) i, i < length segs ->
     (node (bipartite_graph segs) !! str i = Some {["bipartite" := 0]}
      <-> forall j s, j < i -> segs !! j = Some s -> str i ∉ s)
     /\ (node (bipartite_graph segs) !! str i = Some {["bipartite" := 1]}
         <-> exists j s, j < i /\ segs !! j = Some s /\ str i ∈ s))
  /\ (forall segs : list segment, no_label_clash segs ->
        exists G, create_graph segs = Ok G
          /\ (forall c, c ∈ nodes G <-> appears c segs)
          /\ (forall u v, has_edge G u v
                <-> u <> v /\ exists s, s ∈ segs /\ u ∈ s /\ v ∈ s)
          /\ (forall u v, has_edge G u v
                -> edge_weight G u v = Some (co_occurrences u v segs))).
Proof.
  split.
  - intros segs i. apply label_classification.
  - intros segs. apply create_graph_correct.
Qed.

Lemma no_label_clash_triangle :
  no_label_clash [["A"; "B"]; ["B"; "C"]; ["A"; "C"]].
Proof.
  intros i Hi (s & Hs & Hc). cbn in Hi.
  assert (Hstr : str i = "0" \/ str i = "1" \/ str i = "2").
  { destruct i as [|[|[|i]]]; [auto..|lia]. }
  repeat (apply elem_of_cons in Hs as [->|Hs];
          [repeat (apply elem_of_cons in Hc as [Hc|Hc];
                   [rewrite Hc in Hstr; naive_solver|]);
           by apply elem_of_nil in Hc|]).
  by apply elem_of_nil in Hs.
Qed.

Lemma label_clash_behaviour_witness :
  (node (bipartite_graph [["1"]; []]) !! str 1 = Some {["bipartite" := 1]}
   <-> exists j s, j < 1 /\ [["1"]; []] !! j = Some s /\ str 1 ∈ s)
  /\ exists G, create_graph [["A"; "B"]; ["B"; "C"]; ["A"; "C"]] = Ok G
       /\ (forall c, c ∈ nodes G
             <-> appears c [["A"; "B"]; ["B"; "C"]; ["A"; "C"]])
       /\ (forall u v, has_edge G u v
             <-> u <> v /\ exists s, s ∈ [["A"; "B"]; ["B"; "C"]; ["A"; "C"]]
                              /\ u ∈ s /\ v ∈ s)
       /\ (forall u v, has_edge G u v
             -> edge_weight G u v
                = Some (co_occurrences u v [["A"; "B"]; ["B"; "C"]; ["A"; "C"]])).
Proof.
  split.
  - apply (proj1 label_clash_behaviour [["1"]; []] 1). simpl. lia.
  - apply (proj2 label_clash_behaviour). apply no_label_clash_triangle.
Defined.

(** C10 as stated fails.  In [{"1"}, {}] the character "1" carries the
    label of segment 1, yet it is classified as a character node and is a
    node of the interaction graph, whose node set is exactly the set of
    appearing characters.  In [{"A","0"}] the character "0" is classified
    as a segment node and still ends up in the interaction graph. *)
Lemma label_clash_not_excluded :
  (str 1 = "1" /\ appears "1" [["1"]; []]
   /\ node (bipartite_graph [["1"]; []]) !! "1" = Some {["bipartite" := 1]}
   /\ exists G, create_graph [["1"]; []] = Ok G /\ elements (nodes G) = ["1"])
  /\ (str 0 = "0" /\ appears "0" [["A"; "0"]]
      /\ node (bipartite_graph [["A"; "0"]]) !! "0" = Some {["bipartite" := 0]}
      /\ exists G, create_graph [["A"; "0"]] = Ok G
           /\ "0" ∈ nodes G /\ edge_weight G "A" "0" = Some 1).
Proof.
  split.
  - split; [reflexivity|]. split.
    { exists ["1"]. split; apply list_elem_of_here. }
    split; [vm_compute; reflexivity|].
    eexists. split; vm_compute; reflexivity.
  - split; [reflexivity|]. split.
    { exists ["A"; "0"]. split; [apply list_elem_of_here|].
      apply list_elem_of_further, list_elem_of_here. }
    split; [vm_compute; reflexivity|].
    eexists. split; [vm_compute; reflexivity|]. split.
    + apply elem_of_elements. vm_compute.
      apply list_elem_of_further, list_elem_of_here.
    + vm_compute. reflexivity.
Qed.

End BuilderVerdicts.

(** ** Dense ranking *)

Section RankFacts.
Import Pandas.

Lemma Qeq_bool_false x y : Qeq_bool x y = false <-> ~ (x == y)%Q.
Proof.
  rewrite <- Qeq_bool_iff. destruct (Qeq_bool x y); split; congruence.
Qed.

Lemma Qle_bool_false x y : Qle_bool x y = false <-> (y < x)%Q.
Proof.
  split.
  - intros E. apply Qnot_le_lt. rewrite <- Qle_bool_iff. congruence.
  - intros H. apply Qlt_not_le in H. rewrite <- Qle_bool_iff in H.
    by destruct (Qle_bool x y).
Qed.

Lemma insert_desc_elem x l z :
  z ∈ insert_desc x l -> z = x \/ z ∈ l.
Proof.
  induction l as [|y l IH]; cbn [insert_desc].
  - intros H. apply list_elem_of_singleton in H. auto.
  - destruct (Qeq_bool x y); [auto|].
    destruct (Qle_bool y x).
    + intros H. apply elem_of_cons in H. destruct H; auto.
    + intros H. apply elem_of_cons in H as [->|H].
      * right. apply list_elem_of_here.
      * destruct (IH H); [auto|]. right. by apply list_elem_of_further.
Qed.

Lemma insert_desc_keeps x l z : z ∈ l -> z ∈ insert_desc x l.
Proof.
  induction l as [|y l IH]; cbn [insert_desc]; [by intros H; apply elem_of_nil in H|].
  destruct (Qeq_bool x y); [done|].
  destruct (Qle_bool y x).
  - intros H. by apply list_elem_of_further.
  - intros H. apply elem_of_cons in H as [->|H].
    + apply list_elem_of_here.
    + apply list_elem_of_further. auto.
Qed.

Lemma insert_desc_has x l : exists y, y ∈ insert_desc x l /\ (x == y)%Q.
Proof.
  induction l as [|y l IH]; cbn [insert_desc].
  - exists x. split; [apply list_elem_of_here | reflexivity].
  - destruct (Qeq_bool x y) eqn:E.
    + exists y. split; [apply list_elem_of_here|]. by apply Qeq_bool_iff.
    + destruct (Qle_bool y x).
      * exists x. split; [apply list_elem_of_here | reflexivity].
      * destruct IH as (z & Hz & Hxz). exists z.
        split; [by apply list_elem_of_further | done].
Qed.

Lemma insert_desc_sorted x l :
  strictly_desc l -> strictly_desc (insert_desc x l).
Proof.
  induction l as [|y l IH]; cbn [insert_desc].
  - intros _. cbn. split; [|done]. intros z Hz. by apply elem_of_nil in Hz.
  - intros [Hy Hl].
    destruct (Qeq_bool x y) eqn:E; [by split|].
    apply Qeq_bool_false in E.
    destruct (Qle_bool y x) eqn:E'.
    + apply Qle_bool_iff in E'.
      assert (Hyx : (y < x)%Q).
      { apply Qle_lteq in E' as [H|H]; [done|]. exfalso. apply E. by symmetry. }
      cbn. split; [|by split].
      intros z Hz. apply elem_of_cons in Hz as [->|Hz]; [done|].
      eapply Qlt_trans; [by apply Hy | done].
    + apply Qle_bool_false in E'. cbn. split; [|by apply IH].
      intros z Hz. apply insert_desc_elem in Hz as [->|Hz]; auto.
Qed.

Lemma distinct_desc_sorted vs : strictly_desc (distinct_desc vs).
Proof.
  induction vs as [|v vs IH]; cbn; [done|]. by apply insert_desc_sorted.
Qed.

Lemma distinct_desc_elem vs z : z ∈ distinct_desc vs -> z ∈ vs.
Proof.
  induction vs as [|v vs IH]; cbn; [done|].
  intros H. apply insert_desc_elem in H as [->|H].
  - apply list_elem_of_here.
  - apply list_elem_of_further. auto.
Qed.

Lemma distinct_desc_has vs x :
  x ∈ vs -> exists y, y ∈ distinct_desc vs /\ (x == y)%Q.
Proof.
  induction vs as [|v vs IH]; [by intros H; apply elem_of_nil in H|].
  intros H. apply elem_of_cons in H as [->|H]; cbn.
  - apply insert_desc_has.
  - destruct (IH H) as (y & Hy & Hxy). exists y.
    split; [by apply insert_desc_keeps | done].
Qed.

Lemma position_Qeq x x' l : (x == x')%Q -> position x l = position x' l.
Proof.
  intros Hx. induction l as [|y l IH]; [done|]. cbn [position].
  assert (Hb : Qeq_bool x y = Qeq_bool x' y).
  { destruct (Qeq_bool x y) eqn:E, (Qeq_bool x' y) eqn:E'; try done.
    - apply Qeq_bool_iff in E. apply Qeq_bool_false in E'.
      exfalso. apply E'. by rewrite <- Hx.
    - apply Qeq_bool_iff in E'. apply Qeq_bool_false in E.
      exfalso. apply E. by rewrite Hx. }
  rewrite Hb, IH. done.
Qed.

Lemma position_lookup l i y :
  strictly_desc l -> l !! i = Some y -> position y l = S i.
Proof.
  revert i. induction l as [|a l IH]; intros i Hs Hi; [done|].
  destruct Hs as [Ha Hl]. cbn [position]. destruct i as [|i].
  - injection Hi as ->.
    assert (E : Qeq_bool y y = true) by (apply Qeq_bool_iff; reflexivity).
    by rewrite E.
  - assert (Hy : (y < a)%Q).
    { apply Ha. apply list_elem_of_lookup. eauto. }
    assert (E : Qeq_bool y a = false).
    { apply Qeq_bool_false. intros H. rewrite H in Hy.
      by apply Qlt_irrefl in Hy. }
    rewrite E. f_equal. by apply IH.
Qed.

Lemma strictly_desc_lookup l i j a b :
  strictly_desc l -> l !! i = Some a -> l !! j = Some b -> i < j ->
  (b < a)%Q.
Proof.
  revert i j. induction l as [|x l IH]; intros i j Hs Hi Hj Hij; [done|].
  destruct Hs as [Hx Hl]. destruct j as [|j]; [lia|]. destruct i as [|i].
  - injection Hi as ->. apply Hx. apply list_elem_of_lookup. eauto.
  - apply (IH i j); [done|done|done|lia].
Qed.

Lemma present_elem (vs : list (option Q)) v : v ∈ present vs <-> Some v ∈ vs.
Proof.
  unfold present. rewrite list_elem_of_omap. split.
  - intros (o & Ho & Hv). cbn in Hv. by subst.
  - intros H. exists (Some v). done.
Qed.

(** The rank of a value of the column is its place among the distinct values
    in descending order. *)
Lemma dense_rank_place vs v :
  Some v ∈ vs ->
  exists i y, distinct_desc (present vs) !! i = Some y
    /\ (v == y)%Q /\ dense_rank vs v = S i.
Proof.
  intros Hv. apply present_elem in Hv.
  destruct (distinct_desc_has _ _ Hv) as (y & Hy & Hvy).
  apply list_elem_of_lookup in Hy as [i Hi].
  exists i, y. split; [done|]. split; [done|].
  unfold dense_rank. rewrite (position_Qeq v y) by done.
  apply position_lookup; [apply distinct_desc_sorted | done].
Qed.

End RankFacts.

(** ** Columns of a frame *)

Section FrameFacts.
Import Pandas Analyzer.

Lemma set_cell_lookup col v (cells : gmap string Q) c :
  set_cell col v cells !! c = if decide (c = col) then v else cells !! c.
Proof.
  unfold set_cell. destruct v as [q|]; case_decide as H; subst.
  - by rewrite lookup_insert_eq.
  - by rewrite lookup_insert_ne.
  - by rewrite lookup_delete_eq.
  - by rewrite lookup_delete_ne.
Qed.

Lemma index_assign col f df : index (assign col f df) = index df.
Proof.
  unfold index, assign. cbn [rows]. rewrite <- list_fmap_compose.
  by apply list_fmap_ext.
Qed.

Lemma column_assign c col f df :
  column c (assign col f df)
  = if decide (c = col) then (fun r => f r.2) <$> rows df else column c df.
Proof.
  unfold column, assign. cbn [rows]. rewrite <- list_fmap_compose.
  case_decide as H; apply list_fmap_ext; intros i r _; cbn;
    rewrite set_cell_lookup.
  - by rewrite decide_True.
  - by rewrite decide_False.
Qed.

Lemma column_rank m col df :
  column col (assign col (rank_dense_desc m df) df)
  = (fun o : option Q => (fun v => QofN (dense_rank (column m df) v)) <$> o)
      <$> column m df.
Proof.
  rewrite column_assign, decide_True by done.
  unfold column, rank_dense_desc. rewrite <- list_fmap_compose. done.
Qed.

Lemma get_character_ranks_unfold df :
  get_character_ranks df
  = let df1 := assign "degree_rank" (rank_dense_desc "degree" df) df in
    let df2 := assign "closeness_rank" (rank_dense_desc "closeness" df1) df1 in
    let df3 := assign "betweenness_rank" (rank_dense_desc "betweenness" df2) df2 in
    assign "frequency_rank" (rank_dense_desc "frequency" df3) df3.
Proof. reflexivity. Qed.

Ltac column_step :=
  rewrite column_assign;
  first [ rewrite decide_False by discriminate
        | rewrite decide_True by reflexivity ].

Lemma get_character_ranks_columns df metric :
  metric ∈ metrics ->
  column metric (get_character_ranks df) = column metric df
  /\ column (metric +:+ "_rank") (get_character_ranks df)
     = (fun o : option Q =>
          (fun v => QofN (dense_rank (column metric df) v)) <$> o)
         <$> column metric df.
Proof.
  intros Hm. rewrite get_character_ranks_unfold. cbv zeta.
  assert (Hc : metric = "degree" \/ metric = "closeness"
               \/ metric = "betweenness" \/ metric = "frequency").
  { unfold metrics in Hm. set_solver. }
  destruct Hc as [->|[->|[->| ->]]];
    (split; [by repeat column_step|]); cbn [String.append].
  - do 3 column_step. apply column_rank.
  - do 2 column_step. rewrite column_rank. by column_step.
  - do 1 column_step. rewrite column_rank. by do 2 column_step.
  - rewrite column_rank. by do 3 column_step.
Qed.

End FrameFacts.

(** ** The ranks of [get_character_ranks] *)

Section RankClaims.
Import Pandas Analyzer.

Lemma dense_rank_range vs v :
  Some v ∈ vs -> 1 <= dense_rank vs v <= length (distinct_desc (present vs)).
Proof.
  intros Hv. destruct (dense_rank_place vs v Hv) as (i & y & Hi & _ & ->).
  apply lookup_lt_Some in Hi. lia.
Qed.

Lemma dense_rank_onto vs k :
  1 <= k <= length (distinct_desc (present vs)) ->
  exists v, Some v ∈ vs /\ dense_rank vs v = k.
Proof.
  intros Hk.
  destruct (lookup_lt_is_Some_2 (distinct_desc (present vs)) (k - 1))
    as [y Hy]; [lia|].
  exists y. split.
  - apply present_elem, distinct_desc_elem, list_elem_of_lookup. eauto.
  - unfold dense_rank.
    rewrite (position_lookup (distinct_desc (present vs)) (k - 1) y);
      [lia| |done].
    apply distinct_desc_sorted.
Qed.

Lemma dense_rank_ties vs v w :
  (v == w)%Q -> dense_rank vs v = dense_rank vs w.
Proof. intros H. unfold dense_rank. by apply position_Qeq. Qed.

Lemma dense_rank_descending vs v w :
  Some v ∈ vs -> Some w ∈ vs -> (w < v)%Q ->
  dense_rank vs v < dense_rank vs w.
Proof.
  intros Hv Hw Hlt.
  destruct (dense_rank_place vs v Hv) as (i & y & Hi & Hvy & ->).
  destruct (dense_rank_place vs w Hw) as (j & z & Hj & Hwz & ->).
  assert (Hzy : (z < y)%Q) by by rewrite <- Hvy, <- Hwz.
  destruct (decide (i < j)) as [|Hge]; [lia|]. exfalso.
  destruct (decide (j = i)) as [->|Hne].
  - assert (z = y) as -> by congruence. by apply Qlt_irrefl in Hzy.
  - assert (Hyz : (y < z)%Q).
    { apply (strictly_desc_lookup (distinct_desc (present vs)) j i z y);
        [|done|done|lia].
      apply distinct_desc_sorted. }
    apply (Qlt_irrefl y). by eapply Qlt_trans.
Qed.

(** Ranks decide the order of the values. *)
Lemma dense_rank_reflects vs v w :
  Some v ∈ vs -> Some w ∈ vs ->
  dense_rank vs v < dense_rank vs w -> (w < v)%Q.
Proof.
  intros Hv Hw Hr. destruct (Q_dec v w) as [[H|H]|H]; [|done|].
  - pose proof (dense_rank_descending vs w v Hw Hv H). lia.
  - pose proof (dense_rank_ties vs v w H). lia.
Qed.

Lemma dense_rank_top vs v :
  Some v ∈ vs -> (forall w, Some w ∈ vs -> (w <= v)%Q) -> dense_rank vs v = 1.
Proof.
  intros Hv Hmax. pose proof (dense_rank_range vs v Hv) as Hr.
  destruct (dense_rank_onto vs 1) as (u & Hu & Hu1); [lia|].
  destruct (decide (dense_rank vs v = 1)) as [|Hne]; [done|]. exfalso.
  assert (Hlt : (v < u)%Q) by (apply (dense_rank_reflects vs u v); [done|done|lia]).
  apply (Qlt_not_le _ _ Hlt). auto.
Qed.

Lemma dense_rank_next vs v w :
  Some v ∈ vs -> Some w ∈ vs -> (w < v)%Q ->
  (forall u, Some u ∈ vs -> ~ ((w < u)%Q /\ (u < v)%Q)) ->
  dense_rank vs w = S (dense_rank vs v).
Proof.
  intros Hv Hw Hlt Hgap.
  pose proof (dense_rank_descending vs v w Hv Hw Hlt) as Hd.
  pose proof (dense_rank_range vs v Hv) as Hrv.
  pose proof (dense_rank_range vs w Hw) as Hrw.
  destruct (decide (dense_rank vs w = S (dense_rank vs v))) as [|Hne]; [done|].
  exfalso.
  destruct (dense_rank_onto vs (S (dense_rank vs v))) as (u & Hu & Hru); [lia|].
  apply (Hgap u Hu). split.
  - apply (dense_rank_reflects vs u w); [done|done|lia].
  - apply (dense_rank_reflects vs v u); [done|done|lia].
Qed.

End RankClaims.

(** ** The rank columns of the finished frame *)

Section RankColumnFacts.
Import Pandas Analyzer.

Lemma rank_columns_add_other col cols :
  endswith col "rank" = false ->
  filter is_rank (add_column col cols) = filter is_rank cols.
Proof.
  intros H. unfold add_column. case_bool_decide; [done|].
  rewrite filter_app, filter_cons, decide_False; [|unfold is_rank; congruence].
  by rewrite filter_nil, app_nil_r.
Qed.

Lemma rank_columns_add_rank col cols :
  endswith col "rank" = true -> col ∉ filter is_rank cols ->
  filter is_rank (add_column col cols) = filter is_rank cols ++ [col].
Proof.
  intros H Hnin. unfold add_column. rewrite bool_decide_eq_false_2.
  - rewrite filter_app, filter_cons, decide_True by done. by rewrite filter_nil.
  - intros Hin. apply Hnin. apply list_elem_of_filter. done.
Qed.

Lemma rank_columns_unfold df :
  rank_columns df = filter is_rank (columns df).
Proof. reflexivity. Qed.

Lemma columns_assign col f df :
  columns (assign col f df) = add_column col (columns df).
Proof. reflexivity. Qed.

Lemma rank_columns_add_ranks df :
  rank_columns df = [] ->
  rank_columns (add_ranks df)
  = ["degree_rank"; "closeness_rank"; "betweenness_rank"; "frequency_rank";
     "avg_centrality_rank"].
Proof.
  intros H0. rewrite rank_columns_unfold in *.
  unfold add_ranks, get_central_characters, get_centrality_ranks.
  rewrite get_character_ranks_unfold. cbv zeta. rewrite !columns_assign.
  rewrite rank_columns_add_other by reflexivity.
  set (c0 := columns df) in *.
  assert (E1 : filter is_rank (add_column "degree_rank" c0) = ["degree_rank"]).
  { rewrite rank_columns_add_rank; rewrite ?H0; [done|done|].
    apply not_elem_of_nil. }
  set (c1 := add_column "degree_rank" c0) in *.
  assert (E2 : filter is_rank (add_column "closeness_rank" c1)
               = ["degree_rank"; "closeness_rank"]).
  { rewrite rank_columns_add_rank; rewrite ?E1; [done|done|].
    rewrite list_elem_of_singleton. discriminate. }
  set (c2 := add_column "closeness_rank" c1) in *.
  assert (E3 : filter is_rank (add_column "betweenness_rank" c2)
               = ["degree_rank"; "closeness_rank"; "betweenness_rank"]).
  { rewrite rank_columns_add_rank; rewrite ?E2; [done|done|].
    rewrite !elem_of_cons, elem_of_nil. intros [|[|]]; done. }
  set (c3 := add_column "betweenness_rank" c2) in *.
  assert (E4 : filter is_rank (add_column "frequency_rank" c3)
               = ["degree_rank"; "closeness_rank"; "betweenness_rank";
                  "frequency_rank"]).
  { rewrite rank_columns_add_rank; rewrite ?E3; [done|done|].
    rewrite !elem_of_cons, elem_of_nil. intros [|[|[|]]]; done. }
  set (c4 := add_column "frequency_rank" c3) in *.
  rewrite rank_columns_add_rank; rewrite ?E4; [done|done|].
  rewrite !elem_of_cons, elem_of_nil. intros [|[|[|[|]]]]; done.
Qed.

End RankColumnFacts.

Section RankRowFacts.
Import Pandas Analyzer.

Lemma rows_assign col f df :
  rows (assign col f df)
  = (fun r => (r.1, set_cell col (f r.2) r.2)) <$> rows df.
Proof. reflexivity. Qed.

Lemma elem_rows_assign col f df r :
  r ∈ rows (assign col f df)
  <-> exists r0, r0 ∈ rows df /\ r = (r0.1, set_cell col (f r0.2) r0.2).
Proof. rewrite rows_assign, list_elem_of_fmap. naive_solver. Qed.

Lemma complete_elem cols df r col :
  complete cols df = true -> r ∈ rows df -> col ∈ cols ->
  is_Some (r.2 !! col).
Proof.
  unfold complete. rewrite forallb_forall. intros H Hr Hc.
  apply list_elem_of_In in Hr. specialize (H r Hr).
  rewrite forallb_forall in H. apply list_elem_of_In in Hc.
  specialize (H col Hc). by apply bool_decide_eq_true in H.
Qed.

Lemma rank_dense_desc_Some m df (cells : gmap string Q) :
  is_Some (cells !! m) -> is_Some (rank_dense_desc m df cells).
Proof. intros [v Hv]. unfold rank_dense_desc. rewrite Hv. by eexists. Qed.

Ltac cell_step :=
  rewrite set_cell_lookup;
  first [ rewrite decide_False by discriminate
        | rewrite decide_True by reflexivity ].

(** Every row of the finished frame has its five ranks, and
    [avg_centrality_rank] is the mean of the three structural ones. *)
Lemma add_ranks_row df r :
  complete metrics df = true ->
  r ∈ rows (add_ranks df) ->
  exists d c b f,
    r.2 !! "degree_rank" = Some d
    /\ r.2 !! "closeness_rank" = Some c
    /\ r.2 !! "betweenness_rank" = Some b
    /\ r.2 !! "frequency_rank" = Some f
    /\ r.2 !! "avg_centrality_rank" = Some ((d + c + b) / 3)%Q.
Proof.
  intros Hc Hr.
  unfold add_ranks, get_central_characters, get_centrality_ranks in Hr.
  rewrite get_character_ranks_unfold in Hr. cbv zeta in Hr.
  apply elem_rows_assign in Hr as (r5 & Hr & ->).
  apply elem_rows_assign in Hr as (r4 & Hr & ->).
  apply elem_rows_assign in Hr as (r3 & Hr & ->).
  apply elem_rows_assign in Hr as (r2 & Hr & ->).
  apply elem_rows_assign in Hr as (r1 & Hr & ->).
  apply elem_rows_assign in Hr as (r0 & Hr & ->).
  cbn [fst snd].
  assert (Hm : forall m, m ∈ metrics -> is_Some (r0.2 !! m)).
  { intros m Hm. by apply (complete_elem metrics df). }
  destruct (Hm "degree") as [vd Hvd]; [unfold metrics; set_solver|].
  destruct (Hm "closeness") as [vc Hvc]; [unfold metrics; set_solver|].
  destruct (Hm "betweenness") as [vb Hvb]; [unfold metrics; set_solver|].
  destruct (Hm "frequency") as [vf Hvf]; [unfold metrics; set_solver|].
  set (df1 := assign "degree_rank" (rank_dense_desc "degree" df) df) in *.
  set (df2 := assign "closeness_rank" (rank_dense_desc "closeness" df1) df1) in *.
  set (df3 := assign "betweenness_rank" (rank_dense_desc "betweenness" df2) df2) in *.
  set (k1 := set_cell "degree_rank" (rank_dense_desc "degree" df r0.2) r0.2).
  set (k2 := set_cell "closeness_rank" (rank_dense_desc "closeness" df1 k1) k1).
  set (k3 := set_cell "betweenness_rank" (rank_dense_desc "betweenness" df2 k2) k2).
  set (k4 := set_cell "frequency_rank" (rank_dense_desc "frequency" df3 k3) k3).
  assert (H1 : is_Some (k1 !! "degree_rank")).
  { subst k1. cell_step. by apply rank_dense_desc_Some. }
  assert (H2 : is_Some (k2 !! "closeness_rank")).
  { subst k2. cell_step. apply rank_dense_desc_Some.
    subst k1. cell_step. eauto. }
  assert (H3 : is_Some (k3 !! "betweenness_rank")).
  { subst k3. cell_step. apply rank_dense_desc_Some.
    subst k2 k1. do 2 cell_step. eauto. }
  assert (H4 : is_Some (k4 !! "frequency_rank")).
  { subst k4. cell_step. apply rank_dense_desc_Some.
    subst k3 k2 k1. do 3 cell_step. eauto. }
  destruct H1 as [d H1], H2 as [c H2], H3 as [b H3], H4 as [f H4].
  assert (E1 : k4 !! "degree_rank" = Some d).
  { subst k4 k3 k2. do 3 cell_step. done. }
  assert (E2 : k4 !! "closeness_rank" = Some c).
  { subst k4 k3. do 2 cell_step. done. }
  assert (E3 : k4 !! "betweenness_rank" = Some b).
  { subst k4. do 1 cell_step. done. }
  exists d, c, b, f.
  repeat split; repeat cell_step; try done.
  rewrite E1, E2, E3. reflexivity.
Qed.

End RankRowFacts.

(** ** Selecting the rows that attain a value *)

Section FilterFacts.
Context {A : Type} (P : A -> Prop) `{!forall x, Decision (P x)}.

Lemma filter_head_lookup (l : list A) x t :
  filter P l = x :: t ->
  exists i, l !! i = Some x /\ P x
    /\ (forall j y, l !! j = Some y -> P y -> i <= j)
    /\ filter P (drop (S i) l) = t.
Proof.
  induction l as [|a l IH]; [done|].
  rewrite filter_cons. destruct (decide (P a)) as [Ha|Ha].
  - intros [= -> <-]. exists 0.
    split; [done|]. split; [done|]. split; [intros; lia|done].
  - intros Hf. destruct (IH Hf) as (i & Hi & Hx & Hmin & Ht).
    exists (S i). split; [done|]. split; [done|]. split; [|done].
    intros [|j] y Hj Hy.
    + injection Hj as ->. done.
    + specialize (Hmin j y Hj Hy). lia.
Qed.

Lemma filter_nil_lookup (l : list A) i y :
  filter P l = [] -> l !! i = Some y -> ~ P y.
Proof.
  intros Hf Hi Hy.
  assert (Hin : y ∈ filter P l).
  { apply list_elem_of_filter. split; [done|].
    apply list_elem_of_lookup. eauto. }
  rewrite Hf in Hin. by apply elem_of_nil in Hin.
Qed.

Lemma filter_singleton_unique (l : list A) x :
  filter P l = [x] ->
  exists i, l !! i = Some x /\ P x
    /\ forall j y, l !! j = Some y -> P y -> j = i.
Proof.
  intros Hf.
  destruct (filter_head_lookup l x [] Hf) as (i & Hi & Hx & Hmin & Ht).
  exists i. split; [done|]. split; [done|].
  intros j y Hj Hy. specialize (Hmin j y Hj Hy).
  destruct (decide (j = i)) as [|Hne]; [done|]. exfalso.
  apply (filter_nil_lookup (drop (S i) l) (j - S i) y Ht); [|done].
  rewrite lookup_drop. rewrite <- Hj. f_equal. lia.
Qed.

Lemma filter_two_lookup (l : list A) x y t :
  filter P l = x :: y :: t ->
  exists i j, i < j /\ l !! i = Some x /\ l !! j = Some y /\ P x /\ P y.
Proof.
  intros Hf.
  destruct (filter_head_lookup l x _ Hf) as (i & Hi & Hx & _ & Ht).
  destruct (filter_head_lookup _ y _ Ht) as (k & Hk & Hy & _ & _).
  rewrite lookup_drop in Hk.
  exists i, (S i + k). split; [lia|]. split; [done|]. split; [done|]. done.
Qed.

End FilterFacts.

(** ** The central character *)

Section CentralFacts.
Import Pandas Analyzer.

(** The builtin [min] on a non-empty list without [NaN]. *)
Lemma py_min_loop (l : list (option Q)) (a : Q) :
  (forall o, o ∈ l -> is_Some o) ->
  exists m,
    foldl (fun m y => if float_ltb y m then y else m) (Some a) l = Some m
    /\ (m = a \/ Some m ∈ l)
    /\ (m <= a)%Q
    /\ forall x, Some x ∈ l -> (m <= x)%Q.
Proof.
  revert a. induction l as [|o l IH]; intros a Hl.
  - exists a. split; [done|]. split; [by left|]. split; [apply Qle_refl|].
    intros x Hx. by apply elem_of_nil in Hx.
  - destruct (Hl o) as [y ->]; [apply list_elem_of_here|].
    cbn [foldl float_ltb].
    assert (Hl' : forall o, o ∈ l -> is_Some o).
    { intros o Ho. apply Hl. by apply list_elem_of_further. }
    destruct (Qle_bool a y) eqn:E; cbn [negb].
    + apply Qle_bool_iff in E.
      destruct (IH a Hl') as (m & Hm & Hin & Hma & Hall).
      exists m. split; [done|]. split.
      { destruct Hin; [by left|right; by apply list_elem_of_further]. }
      split; [done|]. intros x Hx. apply elem_of_cons in Hx as [[= ->]|Hx].
      * by eapply Qle_trans.
      * by apply Hall.
    + apply Qle_bool_false in E.
      destruct (IH y Hl') as (m & Hm & Hin & Hmy & Hall).
      exists m. split; [done|]. split.
      { right. destruct Hin as [->|Hin];
          [apply list_elem_of_here | by apply list_elem_of_further]. }
      split.
      { eapply Qle_trans; [exact Hmy|]. by apply Qlt_le_weak. }
      intros x Hx. apply elem_of_cons in Hx as [[= ->]|Hx]; [done|].
      by apply Hall.
Qed.

Lemma py_min_spec (l : list (option Q)) :
  l <> [] -> (forall o, o ∈ l -> is_Some o) ->
  exists m, py_min l = Ok (Some m)
    /\ Some m ∈ l /\ forall x, Some x ∈ l -> (m <= x)%Q.
Proof.
  destruct l as [|o l]; [done|]. intros _ Hl.
  destruct (Hl o) as [a ->]; [apply list_elem_of_here|].
  destruct (py_min_loop l a) as (m & Hm & Hin & Hma & Hall).
  { intros o Ho. apply Hl. by apply list_elem_of_further. }
  exists m. cbn [py_min]. rewrite Hm. split; [done|]. split.
  - destruct Hin as [->|Hin];
      [apply list_elem_of_here | by apply list_elem_of_further].
  - intros x Hx. apply elem_of_cons in Hx as [[= ->]|Hx]; [done|].
    by apply Hall.
Qed.

(** On a finished frame the average of the rank columns is the mean of
    the five ranks. *)
Lemma avg_rank_mean df r :
  rank_columns df = [] -> complete metrics df = true ->
  r ∈ rows (add_ranks df) ->
  exists q, avg_rank (add_ranks df) r.2 = Some q /\ (q == mean_rank r.2)%Q.
Proof.
  intros H0 Hc Hr.
  destruct (add_ranks_row df r Hc Hr) as (d & c & b & f & Hd & Hcl & Hb & Hf & Ha).
  unfold avg_rank. rewrite (rank_columns_add_ranks df H0).
  eexists. split; [reflexivity|].
  unfold row_sum, mean_rank, cell. cbn [fmap list_fmap].
  rewrite Hd, Hcl, Hb, Hf, Ha. cbn.
  unfold QofN. cbn. field.
Qed.

End CentralFacts.

Section CentralClaim.
Import Pandas Analyzer.

Lemma index_add_ranks df : index (add_ranks df) = index df.
Proof.
  unfold add_ranks, get_central_characters, get_centrality_ranks.
  rewrite get_character_ranks_unfold. cbv zeta.
  by rewrite !index_assign.
Qed.

Lemma rows_add_ranks_nonempty df : rows df <> [] -> rows (add_ranks df) <> [].
Proof.
  intros Hne Hnil. apply Hne.
  apply (f_equal (fmap fst)) in Hnil. fold (index (add_ranks df)) in Hnil.
  rewrite index_add_ranks in Hnil. unfold index in Hnil.
  by apply fmap_nil_inv in Hnil.
Qed.

Lemma cell_eqb_Some a b : cell_eqb (Some a) (Some b) = true <-> (a == b)%Q.
Proof. cbn. apply Qeq_bool_iff. Qed.

(** On a frame without [NaN] metrics and with at least one row, once the
    rank columns are added: [avg_centrality_rank] is the mean of the three
    structural ranks, [get_central_character] returns the label of the row
    whose mean of the five rank columns is the only minimum, and [SEVERAL]
    when two different rows attain the minimum. *)
Lemma central_character_table df :
  rank_columns df = [] -> complete metrics df = true -> rows df <> [] ->
  let df' := add_ranks df in
  (forall r, r ∈ rows df' ->
     exists d c b,
       r.2 !! "degree_rank" = Some d
       /\ r.2 !! "closeness_rank" = Some c
       /\ r.2 !! "betweenness_rank" = Some b
       /\ r.2 !! "avg_centrality_rank" = Some ((d + c + b) / 3)%Q)
  /\ exists ans, get_central_character df' = Ok ans
       /\ match ans with
          | Character l =>
              exists i r, rows df' !! i = Some r /\ r.1 = l
                /\ (forall j r', rows df' !! j = Some r' ->
                      (mean_rank r.2 <= mean_rank r'.2)%Q)
                /\ (forall j r', rows df' !! j = Some r' ->
                      (mean_rank r'.2 == mean_rank r.2)%Q -> j = i)
          | SEVERAL =>
              exists i j r r', i <> j
                /\ rows df' !! i = Some r /\ rows df' !! j = Some r'
                /\ (mean_rank r.2 == mean_rank r'.2)%Q
                /\ (forall k r'', rows df' !! k = Some r'' ->
                      (mean_rank r.2 <= mean_rank r''.2)%Q)
          end.
Proof.
  intros H0 Hc Hne df'. split.
  { intros r Hr.
    destruct (add_ranks_row df r Hc Hr) as (d & c & b & f & Hd & Hcl & Hb & _ & Ha).
    exists d, c, b. done. }
  assert (Havg : forall r, r ∈ rows df' ->
            exists q, avg_rank df' r.2 = Some q /\ (q == mean_rank r.2)%Q).
  { intros r Hr. by apply avg_rank_mean. }
  set (l := (fun r => avg_rank df' r.2) <$> rows df').
  destruct (py_min_spec l) as (m & Hmin & Hmin_in & Hmin_le).
  { subst l. intros Hnil. apply fmap_nil_inv in Hnil.
    by apply (rows_add_ranks_nonempty df). }
  { subst l. intros o Ho. apply list_elem_of_fmap in Ho as (r & -> & Hr).
    destruct (Havg r Hr) as (q & -> & _). eauto. }
  set (Pm := fun r : label * gmap string Q =>
               cell_eqb (avg_rank df' r.2) (Some m) = true).
  assert (HPm : forall r, r ∈ rows df' -> Pm r <-> (mean_rank r.2 == m)%Q).
  { intros r Hr. unfold Pm. destruct (Havg r Hr) as (q & -> & Hq).
    rewrite cell_eqb_Some, Hq. done. }
  assert (Hle : forall r r', r ∈ rows df' -> r' ∈ rows df' -> Pm r ->
            (mean_rank r.2 <= mean_rank r'.2)%Q).
  { intros r r' Hr Hr' HP. apply HPm in HP; [|done]. rewrite HP.
    destruct (Havg r' Hr') as (q & Hq & Hqm). rewrite <- Hqm.
    apply Hmin_le. subst l. apply list_elem_of_fmap. exists r'. done. }
  assert (Hlk : forall i (r : label * gmap string Q),
            rows df' !! i = Some r -> r ∈ rows df').
  { intros i r Hi. apply list_elem_of_lookup. eauto. }
  unfold get_central_character. fold l. rewrite Hmin.
  cbn [mbind result_bind bind]. fold Pm.
  destruct (filter Pm (rows df')) as [|x [|y t]] eqn:EF.
  - exfalso. subst l. apply list_elem_of_fmap in Hmin_in as (r & Hr & Hin).
    assert (HP : Pm r).
    { unfold Pm. rewrite <- Hr. apply cell_eqb_Some. reflexivity. }
    assert (Hrf : r ∈ filter Pm (rows df')) by by apply list_elem_of_filter.
    rewrite EF in Hrf. by apply elem_of_nil in Hrf.
  - eexists. split; [reflexivity|].
    destruct (filter_singleton_unique Pm (rows df') x EF) as (i & Hi & HPx & Hu).
    exists i, x. split; [done|]. split; [done|]. split.
    + intros j r' Hj. apply Hle; eauto.
    + intros j r' Hj Heq. apply (Hu j r' Hj).
      apply HPm; [eauto|]. rewrite Heq. apply HPm; eauto.
  - eexists. split; [reflexivity|].
    destruct (filter_two_lookup Pm (rows df') x y t EF)
      as (i & j & Hij & Hi & Hj & HPx & HPy).
    exists i, j, x, y. split; [lia|]. split; [done|]. split; [done|]. split.
    + apply HPm in HPx; [|eauto]. apply HPm in HPy; [|eauto].
      by rewrite HPx, HPy.
    + intros k r'' Hk. apply Hle; eauto.
Qed.

End CentralClaim.



(** ** The index of [self.centralities] *)

Section IndexFacts.
Import Pandas Analyzer.

Lemma rows_labelled_pos l df : 0 < rows_labelled l df <-> l ∈ index df.
Proof.
  unfold rows_labelled, index. rewrite list_elem_of_fmap. split.
  - intros Hpos. destruct (filter (fun r => r.1 = l) (rows df)) as [|r t] eqn:E;
      [cbn in Hpos; lia|].
    assert (Hr : r ∈ filter (fun r => r.1 = l) (rows df)).
    { rewrite E. apply list_elem_of_here. }
    apply list_elem_of_filter in Hr as [Hl Hr]. exists r. done.
  - intros (r & -> & Hr).
    assert (Hin : r ∈ filter (fun r' => r'.1 = r.1) (rows df)).
    { by apply list_elem_of_filter. }
    destruct (filter (fun r' => r'.1 = r.1) (rows df)); [|cbn; lia].
    by apply elem_of_nil in Hin.
Qed.

Lemma rows_labelled_assign l col f df :
  rows_labelled l (assign col f df) = rows_labelled l df.
Proof.
  unfold rows_labelled. rewrite rows_assign.
  induction (rows df) as [|r t IH]; [done|].
  rewrite fmap_cons, !filter_cons. cbn [fst].
  destruct (decide (r.1 = l)); cbn [length]; by rewrite IH.
Qed.

Lemma filter_label_relabel l l' col v (rs : list (label * gmap string Q)) :
  length (filter (fun r => r.1 = l)
            ((fun r => if bool_decide (r.1 = l')
                       then (r.1, <[col := v]> r.2) else r) <$> rs))
  = length (filter (fun r => r.1 = l) rs).
Proof.
  induction rs as [|r t IH]; [done|].
  rewrite fmap_cons, !filter_cons.
  assert (E : (if bool_decide (r.1 = l') then (r.1, <[col := v]> r.2) else r).1
              = r.1) by by case_bool_decide.
  rewrite E. destruct (decide (r.1 = l)); cbn [length]; by rewrite IH.
Qed.

End IndexFacts.



(** ** Top ranked characters *)

Section TopRankedClaim.
Import Nx Builder NxAlgo Pandas Analyzer.

(** C1.  In the play with the segments [A, B] and [B, C], the character B
    is the only row that attains the maximum of the column [degree], and
    the only row that attains the maximum of the column [frequency];
    [get_top_ranked_chars] nevertheless reports [SEVERAL] for both, because
    the rows are selected by comparing the column [closeness] with the
    maximum of the metric.  For [closeness] and [betweenness], whose maxima
    here equal B's closeness 1, it reports B. *)
Theorem top_ranked_reads_closeness :
  exists G df top,
    analyze [] [["A"; "B"]; ["B"; "C"]] = Ok (G, df)
    /\ get_top_ranked_chars df = Ok top
    /\ index_where_eq "degree" (series_max (column "degree" df)) df
       = [NameL "B"]
    /\ top !! "degree" = Some SEVERAL
    /\ index_where_eq "frequency" (series_max (column "frequency" df)) df
       = [NameL "B"]
    /\ top !! "frequency" = Some SEVERAL
    /\ top !! "closeness" = Some (Character (NameL "B"))
    /\ top !! "betweenness" = Some (Character (NameL "B"))
    /\ index_where_eq "closeness" (series_max (column "degree" df)) df = [].
Proof.
  eexists _, _, _. split; [vm_compute; reflexivity|].
  split; [vm_compute; reflexivity|].
  repeat (split; [vm_compute; reflexivity|]).
  vm_compute. reflexivity.
Qed.

End TopRankedClaim.

(** ** Graph metrics *)

Section GraphMetricsFacts.
Import Nx NxAlgo Analyzer GraphMetrics.

Ltac lookup_key :=
  repeat (rewrite lookup_insert_ne by discriminate);
  rewrite lookup_insert_eq.

Lemma field_of_NaN (r : result Q) :
  field_of r = NaN <-> exists e, r = Raise e.
Proof.
  destruct r as [q|e]; cbn.
  - split; [discriminate|]. intros [e [=]].
  - split; eauto.
Qed.

(** The fields of [analyze_graph], one by one, for any behaviour of the
    networkx calls. *)
Lemma analyze_graph_fields `{Networkx} (G : Graph) (r : nat) :
  let values := (analyze_graph G r).1 in
  values !! "charcount" = Some (int (size (nodes G)))
  /\ values !! "edgecount" = Some (int (number_of_edges G))
  /\ values !! "connected_components"
     = Some (int (number_connected_components G))
  /\ values !! "maxdegree"
     = Some (field_of (m ← py_max (degree_values G); Ok (QofN m)))
  /\ values !! "avgdegree"
     = Some (field_of (truediv (QofN (foldr Nat.add 0 (degree_values G)))
                               (QofN (size (nodes G)))))
  /\ values !! "density" = Some (field_of (nx_density G))
  /\ values !! "avgpathlength" = Some (avgpathlength G r).1
  /\ values !! "clustering_coefficient"
     = Some (field_of (nx_average_clustering G)).
Proof.
  unfold analyze_graph. destruct (avgpathlength G r) as [apl r'].
  cbn [fst]. repeat split; lookup_key; reflexivity.
Qed.

End GraphMetricsFacts.

Section GraphMetricsClaim.
Import Nx NxAlgo Analyzer GraphMetrics.

(** C8.  Whatever the networkx calls do, [analyze_graph] returns a record
    with all eight fields.  The fields [maxdegree], [avgdegree], [density]
    and [clustering_coefficient] are ["NaN"] exactly when their own
    computation raises, and the value of that computation otherwise,
    independently of the other fields; [charcount], [edgecount] and
    [connected_components] are always numbers.  The field [avgpathlength]
    is different: when the path length raises [NetworkXError], which
    networkx does exactly for a graph with nodes that is not connected,
    the field is not ["NaN"] but the path length of the largest component
    (["NaN"] only if that fails too), and [self.randomization] is set to
    50; on any other exception the field is ["NaN"] and the randomization
    is left alone.  For the graph without nodes [maxdegree] and [avgdegree]
    are ["NaN"] while [charcount], [edgecount] and [connected_components]
    are 0. *)
Theorem analyze_graph_failures_are_local :
  (forall (lib : Networkx) (G : Graph) (r : nat),
     let values := (analyze_graph G r).1 in
     dom values
     = list_to_set ["charcount"; "edgecount"; "maxdegree"; "avgdegree";
                    "density"; "avgpathlength"; "clustering_coefficient";
                    "connected_components"]
     /\ values !! "charcount" = Some (int (size (nodes G)))
     /\ values !! "edgecount" = Some (int (number_of_edges G))
     /\ values !! "connected_components"
        = Some (int (number_connected_components G))
     /\ (values !! "maxdegree" = Some NaN <-> degree_values G = [])
     /\ (forall m, py_max (degree_values G) = Ok m
           -> values !! "maxdegree" = Some (int m))
     /\ (values !! "avgdegree" = Some NaN <-> size (nodes G) = 0)
     /\ (forall q, truediv (QofN (foldr Nat.add 0 (degree_values G)))
                     (QofN (size (nodes G))) = Ok q
           -> values !! "avgdegree" = Some (Val q))
     /\ (values !! "density" = Some NaN <-> exists e, nx_density G = Raise e)
     /\ (forall q, nx_density G = Ok q -> values !! "density" = Some (Val q))
     /\ (values !! "clustering_coefficient" = Some NaN
         <-> exists e, nx_average_clustering G = Raise e)
     /\ (forall q, nx_average_clustering G = Ok q
           -> values !! "clustering_coefficient" = Some (Val q))
     /\ (forall q, nx_average_shortest_path_length G = Ok q
           -> values !! "avgpathlength" = Some (Val q))
     /\ (forall e, nx_average_shortest_path_length G = Raise e
           -> e <> NetworkXError
           -> values !! "avgpathlength" = Some NaN)
     /\ (nx_average_shortest_path_length G = Raise NetworkXError
           -> values !! "avgpathlength"
              = Some (field_of
                        (giant ← nx_max_connected_component_subgraph G;
                         nx_average_shortest_path_length giant)))
     /\ (analyze_graph G r).2
        = match nx_average_shortest_path_length G with
          | Raise NetworkXError => 50
          | _ => r
          end)
  /\ (forall G : Graph,
        average_shortest_path_length G = Raise NetworkXError
        <-> nodes G <> ∅ /\ number_connected_components G <> 1)
  /\ (let values := (@analyze_graph networkx1 empty_graph 0).1 in
      values !! "maxdegree" = Some NaN
      /\ values !! "avgdegree" = Some NaN
      /\ values !! "charcount" = Some (int 0)
      /\ values !! "edgecount" = Some (int 0)
      /\ values !! "connected_components" = Some (int 0)).
Proof.
  split.
  - intros lib G r values.
    destruct (analyze_graph_fields G r)
      as (Hc & He & Hcc & Hm & Ha & Hd & Hp & Hcl).
    fold values in Hc, He, Hcc, Hm, Ha, Hd, Hp, Hcl.
    split.
    { subst values. unfold analyze_graph.
      destruct (avgpathlength G r) as [apl r']. cbn [fst].
      rewrite !dom_insert_L, dom_empty_L. cbn [list_to_set foldr].
      set_solver. }
    split; [done|]. split; [done|]. split; [done|].
    split.
    { rewrite Hm. destruct (degree_values G) as [|x l]; cbn; [done|].
      split; [intros [=]|done]. }
    split.
    { intros m Hmax. rewrite Hm, Hmax. reflexivity. }
    split.
    { rewrite Ha. unfold truediv.
      destruct (Qeq_bool (QofN (size (nodes G))) 0) eqn:E; cbn.
      - apply Qeq_bool_iff in E. split; [intros _|done].
        unfold QofN, Qeq in E. cbn in E. lia.
      - split; [intros [=]|]. intros H0. rewrite H0 in E. discriminate. }
    split.
    { intros q Hq. rewrite Ha, Hq. reflexivity. }
    split.
    { rewrite Hd. split.
      - intros [= Hn]. by apply field_of_NaN.
      - intros Hn. f_equal. by apply field_of_NaN. }
    split.
    { intros q Hq. rewrite Hd, Hq. reflexivity. }
    split.
    { rewrite Hcl. split.
      - intros [= Hn]. by apply field_of_NaN.
      - intros Hn. f_equal. by apply field_of_NaN. }
    split.
    { intros q Hq. rewrite Hcl, Hq. reflexivity. }
    split.
    { intros q Hq. rewrite Hp. unfold avgpathlength. by rewrite Hq. }
    split.
    { intros e Hq Hne. rewrite Hp. unfold avgpathlength. rewrite Hq.
      by destruct e. }
    split.
    { intros Hq. rewrite Hp. unfold avgpathlength. by rewrite Hq. }
    unfold analyze_graph, avgpathlength.
    by destruct (nx_average_shortest_path_length G) as [q|[]].
  - split; [|vm_compute; repeat split].
    intros G. unfold average_shortest_path_length, is_connected.
    case_bool_decide as Hn; cbn [mbind result_bind bind].
    + split; [discriminate|]. by intros [? _].
    + case_bool_decide as Hc; cbn [negb].
      * split; [|by intros [_ ?]]. unfold truediv.
        by destruct (Qeq_bool _ _).
      * split; [done|]. done.
Qed.

End GraphMetricsClaim.

(** ** Further properties of the change rate *)

Section ChangeRateRange.
Import Temporal.

Lemma QofN_S (n : nat) : QofN (S n) = (Z.pos (Pos.of_succ_nat n) # 1)%Q.
Proof. reflexivity. Qed.

Ltac nat_quotient :=
  rewrite QofN_S; unfold Qdiv, Qinv, Qmult, Qle, Qeq, inject_Z;
  cbn [Qnum Qden]; rewrite ?Zpos_P_of_succ_nat; lia.

Lemma Qdiv_nat_le1 (a n : nat) :
  0 < n -> ((inject_Z (Z.of_nat a) / QofN n <= 1)%Q <-> a <= n).
Proof. intros Hn. destruct n as [|n]; [lia|]. nat_quotient. Qed.

Lemma Qdiv_nat_ge0 (a n : nat) : (0 <= inject_Z (Z.of_nat a) / QofN n)%Q.
Proof.
  destruct n as [|n]; [|nat_quotient].
  change (QofN 0) with 0%Q. unfold Qdiv. change (/ 0)%Q with 0%Q.
  rewrite Qmult_0_r. apply Qle_refl.
Qed.

Lemma Qdiv_nat_eq0 (a n : nat) :
  0 < n -> ((inject_Z (Z.of_nat a) / QofN n == 0)%Q <-> a = 0).
Proof. intros Hn. destruct n as [|n]; [lia|]. nat_quotient. Qed.

Lemma Qdiv_nat_eq1 (a n : nat) :
  0 < n -> ((inject_Z (Z.of_nat a) / QofN n == 1)%Q <-> a = n).
Proof. intros Hn. destruct n as [|n]; [lia|]. nat_quotient. Qed.

Lemma sym_diff_inter_size (s t : gset string) :
  size (s ∪ t) = size (sym_diff s t) + size (s ∩ t).
Proof.
  rewrite <- size_union by (unfold sym_diff; set_solver).
  f_equal. unfold sym_diff. apply set_eq. intros x.
  rewrite !elem_of_union, !elem_of_difference, elem_of_intersection.
  destruct (decide (x ∈ s)), (decide (x ∈ t)); tauto.
Qed.

Lemma sym_diff_empty (s t : gset string) : size (sym_diff s t) = 0 <-> s = t.
Proof.
  rewrite size_empty_iff. unfold sym_diff. unfold_leibniz. split.
  - intros He. apply set_equiv. intros x.
    assert (Hx : x ∉ s ∖ t ∪ t ∖ s) by (rewrite He; set_solver).
    rewrite elem_of_union, !elem_of_difference in Hx.
    destruct (decide (x ∈ s)), (decide (x ∈ t)); tauto.
  - intros ->. set_solver.
Qed.

(** What one step of [get_drama_change_rate] computes: a number between 0
    and 1, which is 0 exactly when the two segments have the same speakers
    and 1 exactly when they share none. *)
Theorem change_rate_range (x y : segment) (q : Q) :
  change_rate x y = Ok q ->
  (0 <= q)%Q /\ (q <= 1)%Q
  /\ ((q == 0)%Q <-> pyset x = pyset y)
  /\ ((q == 1)%Q <-> pyset x ∩ pyset y = ∅).
Proof.
  unfold change_rate. cbv zeta. rewrite cr_is_sym_diff. unfold truediv.
  destruct (Qeq_bool (QofN (size (pyset x ∪ pyset y))) 0) eqn:E; [discriminate|].
  intros [= <-].
  assert (Hn : 0 < size (pyset x ∪ pyset y)).
  { destruct (size (pyset x ∪ pyset y)) eqn:En; [|lia].
    assert (Ht : Qeq_bool (QofN 0) 0 = true) by by apply QofN_eq0.
    congruence. }
  pose proof (sym_diff_inter_size (pyset x) (pyset y)) as Hs.
  split; [apply Qdiv_nat_ge0|]. split; [apply Qdiv_nat_le1; lia|]. split.
  - rewrite Qdiv_nat_eq0 by done. apply sym_diff_empty.
  - rewrite Qdiv_nat_eq1 by done.
    assert (Hi : size (pyset x ∩ pyset y) = 0 <-> pyset x ∩ pyset y = ∅).
    { rewrite size_empty_iff. by unfold_leibniz. }
    rewrite <- Hi. lia.
Qed.

Lemma change_rate_range_witness :
  (0 <= 2 # 3)%Q /\ (2 # 3 <= 1)%Q
  /\ ((2 # 3 == 0)%Q <-> pyset ["A"; "B"] = pyset ["B"; "C"])
  /\ ((2 # 3 == 1)%Q <-> pyset ["A"; "B"] ∩ pyset ["B"; "C"] = ∅).
Proof.
  apply (change_rate_range ["A"; "B"] ["B"; "C"] (2 # 3)%Q).
  vm_compute. reflexivity.
Defined.

(** The change rate does not depend on the direction of the step. *)
Theorem change_rate_symmetric (x y : segment) :
  change_rate x y = change_rate y x.
Proof.
  unfold change_rate. cbv zeta.
  rewrite (comm_L (∩) (pyset y) (pyset x)), (comm_L (∪) (pyset y) (pyset x)).
  f_equal. f_equal. lia.
Qed.

End ChangeRateRange.

(** ** Aliases and speakers *)

Section LinaFacts.
Import Lina.

Lemma insert_aliases_lookup (name : string) (aliases : list string)
    (charmap : gmap string string) (a : string) :
  foldl (fun charmap alias => <[alias := name]> charmap) charmap aliases !! a
  = if decide (a ∈ aliases) then Some name else charmap !! a.
Proof.
  revert charmap. induction aliases as [|b l IH]; intros charmap.
  - cbn [foldl]. rewrite decide_False; [done|]. apply not_elem_of_nil.
  - cbn [foldl]. rewrite IH. destruct (decide (a ∈ l)) as [Hl|Hl].
    + rewrite decide_True; [done|]. by apply list_elem_of_further.
    + destruct (decide (a = b)) as [->|Hne].
      * rewrite lookup_insert_eq, decide_True; [done|]. apply list_elem_of_here.
      * rewrite lookup_insert_ne by done. rewrite decide_False; [done|].
        intros Hc. apply elem_of_cons in Hc as [?|?]; done.
Qed.

Lemma create_charmap_snoc (personae : list persona) (p : persona) (a : string) :
  create_charmap (personae ++ [p]) !! a
  = if decide (a ∈ p.2) then Some p.1 else create_charmap personae !! a.
Proof.
  unfold create_charmap. rewrite foldl_snoc. apply insert_aliases_lookup.
Qed.

(** [create_charmap] maps an alias to the name of the last persona that
    lists it, and has no other keys. *)
Theorem create_charmap_last_wins (personae : list persona) (a name : string) :
  create_charmap personae !! a = Some name
  <-> exists i p, personae !! i = Some p /\ p.1 = name /\ a ∈ p.2
        /\ forall j p', i < j -> personae !! j = Some p' -> a ∉ p'.2.
Proof.
  revert name. induction personae as [|p l IH] using rev_ind; intros name.
  - cbn. rewrite lookup_empty. split; [done|]. intros (i & p & Hi & _).
    by rewrite lookup_nil in Hi.
  - assert (Hmid : (l ++ [p]) !! length l = Some p)
      by by apply list_lookup_middle.
    assert (Hlen : length (l ++ [p]) = S (length l))
      by (rewrite length_app; cbn; lia).
    rewrite create_charmap_snoc. unfold persona in *.
    destruct (decide (a ∈ p.2)) as [Ha|Ha].
    + split.
      * intros [= <-]. exists (length l), p.
        split; [done|]. split; [done|]. split; [done|]. intros j p' Hj Hp'.
        apply lookup_lt_Some in Hp'. unfold persona in *. exfalso. lia.
      * intros (i & p0 & Hi & Hn & Hin & Hlast).
        destruct (decide (i = length l)) as [->|Hne].
        -- rewrite Hmid in Hi. injection Hi as <-. by subst.
        -- exfalso. apply (Hlast (length l) p); [|done|done].
           apply lookup_lt_Some in Hi. unfold persona in *. lia.
    + rewrite IH. split.
      * intros (i & p0 & Hi & Hn & Hin & Hlast). exists i, p0.
        split; [by apply lookup_app_l_Some|]. split; [done|]. split; [done|].
        intros j p' Hj Hp'.
        destruct (decide (j = length l)) as [->|Hne].
        -- rewrite Hmid in Hp'. by injection Hp' as <-.
        -- apply (Hlast j p' Hj). apply lookup_lt_Some in Hp' as Hlt.
           unfold persona in *. rewrite lookup_app_l in Hp' by lia. done.
      * intros (i & p0 & Hi & Hn & Hin & Hlast).
        destruct (decide (i = length l)) as [->|Hne].
        -- rewrite Hmid in Hi. injection Hi as <-. done.
        -- assert (Hi' : l !! i = Some p0).
           { apply lookup_lt_Some in Hi as Hlt. unfold persona in *.
             rewrite lookup_app_l in Hi by lia. done. }
           exists i, p0. split; [done|]. split; [done|]. split; [done|].
           intros j p' Hj Hp'. apply (Hlast j p' Hj).
           by apply lookup_app_l_Some.
Qed.

(** Every value of the map is the name of a persona, every key one of its
    aliases. *)
Lemma create_charmap_sound (personae : list persona) (a name : string) :
  create_charmap personae !! a = Some name ->
  exists p, p ∈ personae /\ p.1 = name /\ a ∈ p.2.
Proof.
  intros Hl. apply create_charmap_last_wins in Hl as (i & p & Hi & Hn & Ha & _).
  exists p. split; [|done]. apply list_elem_of_lookup. eauto.
Qed.

Lemma create_charmap_dom (personae : list persona) (a : string) :
  is_Some (create_charmap personae !! a)
  <-> exists p, p ∈ personae /\ a ∈ p.2.
Proof.
  induction personae as [|p l IH] using rev_ind.
  - cbn. rewrite lookup_empty. split; [intros [? [=]]|].
    intros (p & Hp & _). by apply elem_of_nil in Hp.
  - rewrite create_charmap_snoc. destruct (decide (a ∈ p.2)) as [Ha|Ha].
    + split; [|eauto]. intros _. exists p. split; [|done].
      apply elem_of_app. right. apply list_elem_of_here.
    + rewrite IH. split.
      * intros (p0 & Hp0 & Hin). exists p0. split; [|done].
        apply elem_of_app. by left.
      * intros (p0 & Hp0 & Hin). apply elem_of_app in Hp0 as [Hp0|Hp0]; [eauto|].
        apply list_elem_of_singleton in Hp0 as ->. done.
Qed.

Lemma charnames_spec (charmap : gmap string string) (speakers : list string) :
  match charnames charmap speakers with
  | Ok cs => Forall2 (fun sp c => charmap !! sp = Some c) speakers cs
  | Raise e => e = KeyError /\ exists sp, sp ∈ speakers /\ charmap !! sp = None
  end.
Proof.
  induction speakers as [|sp l IH]; cbn [charnames]; [constructor|].
  destruct (charmap !! sp) as [c|] eqn:E.
  - destruct (charnames charmap l) as [cs|e]; cbn.
    + by constructor.
    + destruct IH as (-> & sp' & Hin & Hn). split; [done|].
      exists sp'. split; [by apply list_elem_of_further|done].
  - split; [done|]. exists sp. split; [apply list_elem_of_here|done].
Qed.

End LinaFacts.

Section SpeakerFacts.
Import Lina.

Lemma elem_of_list_set (speakers : list string) (c : string) :
  c ∈ list_set speakers <-> c ∈ speakers.
Proof. unfold list_set, pyset. by rewrite elem_of_elements, elem_of_list_to_set. Qed.

Lemma extract_speakers_ok (charmap : gmap string string)
    (parentsegments : list (list string)) (segments : list segment) :
  extract_speakers charmap parentsegments = Ok segments ->
  Forall2 (fun tokens segment =>
             (forall sp, sp ∈ tokens -> is_Some (charmap !! sp))
             /\ NoDup segment
             /\ forall c, c ∈ segment
                  <-> exists sp, sp ∈ tokens /\ charmap !! sp = Some c)
          parentsegments segments.
Proof.
  revert segments. induction parentsegments as [|tokens rest IH];
    intros segments; cbn [extract_speakers].
  - intros [= <-]. constructor.
  - pose proof (charnames_spec charmap tokens) as Hc.
    destruct (charnames charmap tokens) as [cs|e]; [|discriminate].
    cbn [mbind result_bind bind].
    destruct (extract_speakers charmap rest) as [segs|e]; [|discriminate].
    cbn [mbind result_bind bind]. intros [= <-].
    constructor; [|by apply IH]. split.
    { intros sp Hin. apply list_elem_of_lookup in Hin as [i Hi].
      destruct (Forall2_lookup_l _ _ _ _ _ Hc Hi) as (c' & _ & Hm'). eauto. }
    split; [unfold list_set; apply (NoDup_elements (C := gset string))|].
    intros c. rewrite elem_of_list_set. split.
    + intros Hin. apply list_elem_of_lookup in Hin as [i Hi].
      destruct (Forall2_lookup_r _ _ _ _ _ Hc Hi) as (sp & Hsp & Hm).
      exists sp. split; [|done]. apply list_elem_of_lookup. eauto.
    + intros (sp & Hin & Hm). apply list_elem_of_lookup in Hin as [i Hi].
      destruct (Forall2_lookup_l _ _ _ _ _ Hc Hi) as (c' & Hc' & Hm').
      rewrite Hm in Hm'. injection Hm' as <-.
      apply list_elem_of_lookup. eauto.
Qed.

Lemma extract_speakers_raise (charmap : gmap string string)
    (parentsegments : list (list string)) (e : exn) :
  extract_speakers charmap parentsegments = Raise e ->
  e = KeyError
  /\ exists tokens sp, tokens ∈ parentsegments /\ sp ∈ tokens
       /\ charmap !! sp = None.
Proof.
  induction parentsegments as [|tokens rest IH]; cbn [extract_speakers];
    [discriminate|].
  pose proof (charnames_spec charmap tokens) as Hc.
  destruct (charnames charmap tokens) as [cs|e']; cbn [mbind result_bind bind].
  - destruct (extract_speakers charmap rest) as [segs|e'];
      cbn [mbind result_bind bind]; [discriminate|].
    intros [= <-]. destruct IH as (-> & tokens' & sp & Hin & Hsp & Hn); [done|].
    split; [done|]. exists tokens', sp. split; [by apply list_elem_of_further|done].
  - intros [= <-]. destruct Hc as (-> & sp & Hsp & Hn). split; [done|].
    exists tokens, sp. split; [apply list_elem_of_here|done].
Qed.


End SpeakerFacts.

(** ** The rank columns are dense descending rankings *)

Section DenseRankingClaim.
Import Pandas Analyzer Ranking.

Lemma QofN_inj (m n : nat) : QofN m = QofN n -> m = n.
Proof. unfold QofN, inject_Z. intros [= H]. lia. Qed.

Lemma dense_rank_column (values : list (option Q)) :
  is_dense_ranking values
    ((fun o : option Q => (fun v => QofN (dense_rank values v)) <$> o)
       <$> values).
Proof.
  set (ranks := (fun o : option Q =>
                   (fun v => QofN (dense_rank values v)) <$> o) <$> values).
  assert (Hin : forall i v, values !! i = Some (Some v) -> Some v ∈ values).
  { intros i v Hi. apply list_elem_of_lookup. eauto. }
  assert (Hrk : forall i v r, ranked values ranks i v r ->
                  Some v ∈ values /\ r = dense_rank values v).
  { intros i v r [Hv Hr]. split; [eauto|]. subst ranks.
    rewrite list_lookup_fmap, Hv in Hr. cbn in Hr.
    assert (Hq : QofN (dense_rank values v) = QofN r) by congruence.
    symmetry. by apply QofN_inj. }
  assert (Hmk : forall i v, values !! i = Some (Some v) ->
                  ranked values ranks i v (dense_rank values v)).
  { intros i v Hi. split; [done|]. subst ranks.
    by rewrite list_lookup_fmap, Hi. }
  unfold is_dense_ranking. cbv zeta.
  split; [subst ranks; by rewrite length_fmap|].
  split. { intros i Hi. subst ranks. by rewrite list_lookup_fmap, Hi. }
  split.
  { intros i v Hi. exists (dense_rank values v). split; [by apply Hmk|].
    apply dense_rank_range. eauto. }
  split.
  { intros k Hk. destruct (dense_rank_onto values k Hk) as (v & Hv & <-).
    apply list_elem_of_lookup in Hv as [i Hi]. exists i, v. by apply Hmk. }
  split.
  { intros i j v w r s Hr Hs.
    apply Hrk in Hr as [Hv ->]. apply Hrk in Hs as [Hw ->].
    split; [by apply dense_rank_ties|].
    split; [by apply dense_rank_descending|].
    intros Hlt Hgap. apply dense_rank_next; [done|done|done|].
    intros u Hu. apply list_elem_of_lookup in Hu as [k Hk]. by apply (Hgap k). }
  intros i v r Hr Hmax. apply Hrk in Hr as [Hv ->].
  apply dense_rank_top; [done|]. intros w Hw.
  apply list_elem_of_lookup in Hw as [k Hk]. by apply (Hmax k).
Qed.

(** C9.  [get_character_ranks] leaves the four value columns as they are,
    and each of the columns [degree_rank], [closeness_rank],
    [betweenness_rank] and [frequency_rank] it writes is the dense
    descending ranking of the column [degree], [closeness], [betweenness]
    and [frequency]: the highest value has rank 1, equal values have equal
    ranks, the next lower distinct value has the previous rank plus one,
    and the ranks assigned are exactly 1..d for d distinct values. *)
Theorem dense_ranking (df : DataFrame) :
  let df' := get_character_ranks df in
  (column "degree" df' = column "degree" df
   /\ is_dense_ranking (column "degree" df) (column "degree_rank" df'))
  /\ (column "closeness" df' = column "closeness" df
      /\ is_dense_ranking (column "closeness" df) (column "closeness_rank" df'))
  /\ (column "betweenness" df' = column "betweenness" df
      /\ is_dense_ranking (column "betweenness" df)
           (column "betweenness_rank" df'))
  /\ (column "frequency" df' = column "frequency" df
      /\ is_dense_ranking (column "frequency" df)
           (column "frequency_rank" df')).
Proof.
  assert (Hm : forall metric, metric ∈ metrics ->
            column metric (get_character_ranks df) = column metric df
            /\ is_dense_ranking (column metric df)
                 (column (metric +:+ "_rank") (get_character_ranks df))).
  { intros metric Hin.
    destruct (get_character_ranks_columns df metric Hin) as [Hv Hr].
    split; [done|]. rewrite Hr. apply dense_rank_column. }
  cbv zeta. unfold metrics in Hm.
  split; [apply (Hm "degree"); set_solver|].
  split; [apply (Hm "closeness"); set_solver|].
  split; [apply (Hm "betweenness"); set_solver|].
  apply (Hm "frequency"); set_solver.
Qed.

End DenseRankingClaim.

Section GraphMetricsFallback.
Import Nx Builder NxAlgo Analyzer GraphMetrics.

(** A play whose graph has the two components [{A, B}] and [{C, D, E}]:
    the path length raises [NetworkXError], the field [avgpathlength] is
    the path length 1 of the larger component and not ["NaN"], and the
    number of random graphs drawn afterwards drops from 1000 to 50. *)
Lemma disconnected_graph_not_NaN :
  exists G q,
    create_graph [["A"; "B"]; ["C"; "D"; "E"]] = Ok G
    /\ average_shortest_path_length G = Raise NetworkXError
    /\ (@analyze_graph networkx1 G 1000).1 !! "avgpathlength" = Some (Val q)
    /\ (q == 1)%Q
    /\ (@analyze_graph networkx1 G 1000).2 = 50.
Proof.
  eexists _, _. split; [vm_compute; reflexivity|].
  split; [vm_compute; reflexivity|].
  split; [vm_compute; reflexivity|].
  split; vm_compute; reflexivity.
Qed.

End GraphMetricsFallback.

(** ** Writing cells by label *)

Section LocFacts.
Import Nx Builder NxAlgo Pandas Analyzer.

(** [df.loc[l', col] = v] adds the label [l'] and no other. *)
Lemma elem_index_loc_write l l' col v df :
  l ∈ index (loc_write l' col v df) <-> l = l' \/ l ∈ index df.
Proof.
  unfold loc_write. case_bool_decide as Hin.
  - assert (E : index (mkFrame (add_column col (columns df))
                  ((fun r => if bool_decide (r.1 = l')
                             then (r.1, <[col := v]> r.2) else r) <$> rows df))
                = index df).
    { unfold index. cbn [rows]. rewrite <- list_fmap_compose.
      apply list_fmap_ext. intros i r _. cbn. by case_bool_decide. }
    rewrite E. split; [by right|]. by intros [->|].
  - unfold index. cbn [rows]. rewrite fmap_app. cbn [fmap list_fmap fst].
    rewrite elem_of_app, list_elem_of_singleton. tauto.
Qed.

Lemma elem_index_loc_write_list l col (ps : list (string * Q)) df :
  l ∈ index (foldl (fun df cm => loc_write (NameL cm.1) col cm.2 df) df ps)
  <-> (exists c, l = NameL c /\ c ∈ ps.*1) \/ l ∈ index df.
Proof.
  revert df. induction ps as [|[c v] ps IH]; intros df.
  - cbn [foldl]. split; [by right|]. intros [(c & _ & Hc)|]; [|done].
    by apply elem_of_nil in Hc.
  - cbn [foldl fst snd]. rewrite IH, elem_index_loc_write, fmap_cons. cbn [fst].
    split.
    + intros [(c0 & -> & Hc0)|[->|Hl]].
      * left. exists c0. split; [done|]. by apply list_elem_of_further.
      * left. exists c. split; [done|]. apply list_elem_of_here.
      * by right.
    + intros [(c0 & -> & Hc0)|Hl].
      * apply elem_of_cons in Hc0 as [->|Hc0]; [right; by left|].
        left. eauto.
      * right. by right.
Qed.

Lemma elem_index_loc_write_all l col (d : gmap string Q) df :
  l ∈ index (loc_write_all col d df)
  <-> (exists c, l = NameL c /\ c ∈ dom d) \/ l ∈ index df.
Proof.
  unfold loc_write_all. rewrite elem_index_loc_write_list.
  assert (Hk : forall c, c ∈ (map_to_list d).*1 <-> c ∈ dom d).
  { intros c. rewrite elem_of_dom, list_elem_of_fmap. split.
    - intros ([c' v] & -> & Hin). apply elem_of_map_to_list in Hin. eauto.
    - intros [v Hv]. exists (c, v). split; [done|].
      by apply elem_of_map_to_list. }
  split; (intros [(c & -> & Hc)|Hl]; [left; exists c; split; [done|]; by apply Hk
                                     | by right]).
Qed.

Lemma elem_index_assign l col f df : l ∈ index (assign col f df) <-> l ∈ index df.
Proof. by rewrite index_assign. Qed.

Lemma elem_of_dom_Counter c (l : list string) : c ∈ dom (Counter l) <-> c ∈ l.
Proof.
  induction l as [|x l IH]; cbn [Counter foldr].
  - rewrite dom_empty. split; [intros Hc; by apply elem_of_empty in Hc|].
    intros Hc. by apply elem_of_nil in Hc.
  - fold (Counter l). rewrite dom_insert, elem_of_union, elem_of_singleton, IH,
      elem_of_cons. done.
Qed.

Lemma elem_of_dom_imap {A B} (f : string -> B) (m : gmap string A) c :
  c ∈ dom (map_imap (fun n _ => Some (f n)) m) <-> c ∈ dom m.
Proof.
  rewrite !elem_of_dom, map_lookup_imap.
  destruct (m !! c); cbn; split; intros [? ?]; eauto; done.
Qed.

Lemma appears_concat c segs : appears c segs <-> c ∈ concat segs.
Proof.
  unfold appears. induction segs as [|s segs IH]; cbn [concat].
  - split; [intros (s & Hs & _); by apply elem_of_nil in Hs|].
    intros Hc. by apply elem_of_nil in Hc.
  - rewrite elem_of_app, <- IH. split.
    + intros (s' & Hs & Hc). apply elem_of_cons in Hs as [->|Hs]; eauto.
    + intros [Hc|(s' & Hs & Hc)].
      * exists s. split; [apply list_elem_of_here|done].
      * exists s'. split; [by apply list_elem_of_further|done].
Qed.

End LocFacts.

Section LocSetFacts.
Import Nx Builder NxAlgo Pandas Analyzer.

Lemma index_loc_write l col v df :
  index (loc_write l col v df)
  = if bool_decide (l ∈ index df) then index df else index df ++ [l].
Proof.
  unfold loc_write. case_bool_decide as Hin.
  - unfold index. cbn [rows]. rewrite <- list_fmap_compose.
    apply list_fmap_ext. intros i r _. cbn. by case_bool_decide.
  - unfold index. cbn [rows]. by rewrite fmap_app.
Qed.

Lemma all_hashable_loc_write c col v df :
  all_hashable (loc_write (NameL c) col v df) = all_hashable df.
Proof.
  unfold all_hashable. rewrite index_loc_write. case_bool_decide; [done|].
  rewrite forallb_app. cbn. by rewrite !andb_true_r.
Qed.

Lemma loc_set_list_ok col (ps : list (string * Q)) df :
  all_hashable df = true ->
  foldl (fun r cm => df ← r; loc_set (NameL cm.1) col cm.2 df) (Ok df) ps
  = Ok (foldl (fun df cm => loc_write (NameL cm.1) col cm.2 df) df ps)
  /\ all_hashable
       (foldl (fun df cm => loc_write (NameL cm.1) col cm.2 df) df ps) = true.
Proof.
  revert df. induction ps as [|[c v] ps IH]; intros df Hh; [done|].
  cbn [foldl fst snd mbind result_bind bind]. unfold loc_set at 2. rewrite Hh. apply IH.
  by rewrite all_hashable_loc_write.
Qed.

Lemma foldl_raise col (ps : list (string * Q)) e :
  foldl (fun r cm => df ← r; loc_set (NameL cm.1) col cm.2 df) (Raise e) ps
  = Raise e.
Proof. induction ps as [|cm ps IH]; [done|]. cbn [foldl]. exact IH. Qed.

(** On a frame whose index holds only names the loop writes its cells. *)
Lemma loc_set_all_ok col d df :
  all_hashable df = true ->
  loc_set_all col d df = Ok (loc_write_all col d df)
  /\ all_hashable (loc_write_all col d df) = true.
Proof. intros Hh. by apply loc_set_list_ok. Qed.

(** On a frame whose index holds a persona entry the first assignment
    raises. *)
Lemma loc_set_all_raise col (d : gmap string Q) df :
  all_hashable df = false ->
  loc_set_all col d df = if decide (d = ∅) then Ok df else Raise TypeError.
Proof.
  intros Hh. unfold loc_set_all. case_decide as He.
  - subst d. by rewrite map_to_list_empty.
  - destruct (map_to_list d) as [|cm ps] eqn:E.
    + by apply map_to_list_empty_iff in E.
    + cbn [foldl mbind result_bind bind]. unfold loc_set at 2. rewrite Hh. apply foldl_raise.
Qed.

Lemma columns_loc_write l col v df :
  columns (loc_write l col v df) = add_column col (columns df).
Proof. unfold loc_write. by case_bool_decide. Qed.

Lemma add_column_known col cols : col ∈ cols -> add_column col cols = cols.
Proof. intros Hin. unfold add_column. by rewrite bool_decide_eq_true_2. Qed.

Lemma columns_loc_write_all col d df :
  col ∈ columns df -> columns (loc_write_all col d df) = columns df.
Proof.
  unfold loc_write_all. generalize (map_to_list d). intros ps. revert df.
  induction ps as [|cm ps IH]; intros df Hin; [done|].
  cbn [foldl]. rewrite IH; rewrite columns_loc_write, add_column_known; done.
Qed.

(** The rows of a frame after one assignment. *)
Lemma elem_rows_loc_write l col v df r' :
  r' ∈ rows (loc_write l col v df) ->
  (r'.1 = l /\ r'.2 !! col = Some v
   /\ ((l ∉ index df /\ r' = (l, {[col := v]}))
       \/ exists r, r ∈ rows df /\ r.1 = l /\ r'.2 = <[col := v]> r.2))
  \/ (r'.1 <> l /\ r' ∈ rows df).
Proof.
  unfold loc_write. case_bool_decide as Hin; cbn [rows].
  - intros Hr. apply list_elem_of_fmap in Hr as (r & -> & Hr).
    case_bool_decide as Hl.
    + left. cbn. split; [done|]. split; [by rewrite lookup_insert_eq|].
      right. eauto.
    + right. done.
  - intros Hr. apply elem_of_app in Hr as [Hr|Hr].
    + right. split; [|done]. intros <-. apply Hin.
      unfold index. apply list_elem_of_fmap. eauto.
    + apply list_elem_of_singleton in Hr as ->. left. cbn.
      split; [done|]. split; [by rewrite lookup_singleton_eq|]. by left.
Qed.

(** After the loop every row that was keyed in the dict, or had the cell
    before, has the cell. *)
Lemma loc_write_list_sets col (ps : list (string * Q)) df :
  (forall r, r ∈ rows df ->
     (exists c, r.1 = NameL c /\ c ∈ ps.*1) \/ is_Some (r.2 !! col)) ->
  forall r, r ∈ rows (foldl (fun df cm => loc_write (NameL cm.1) col cm.2 df)
                            df ps) ->
    is_Some (r.2 !! col).
Proof.
  revert df. induction ps as [|[c v] ps IH]; intros df Hdf r Hr.
  - cbn [foldl] in Hr. destruct (Hdf r Hr) as [(c & _ & Hc)|]; [|done].
    by apply elem_of_nil in Hc.
  - cbn [foldl fst snd] in Hr. revert r Hr. apply IH. intros r Hr.
    apply elem_rows_loc_write in Hr as [(Hl & Hv & _)|[Hne Hr]].
    + right. eauto.
    + destruct (Hdf r Hr) as [(c0 & Hl & Hc0)|]; [|by right].
      left. exists c0. split; [done|]. rewrite fmap_cons in Hc0.
      apply elem_of_cons in Hc0 as [->|Hc0]; [|done]. cbn in Hne. done.
Qed.

(** The loop keeps the other cells when every key has a row already. *)
Lemma loc_write_list_keeps col c' (ps : list (string * Q)) df :
  (forall r, r ∈ rows df -> is_Some (r.2 !! c')) ->
  (forall c, c ∈ ps.*1 -> NameL c ∈ index df) ->
  forall r, r ∈ rows (foldl (fun df cm => loc_write (NameL cm.1) col cm.2 df)
                            df ps) ->
    is_Some (r.2 !! c').
Proof.
  revert df. induction ps as [|[c v] ps IH]; intros df Hdf Hk r Hr.
  - cbn [foldl] in Hr. auto.
  - cbn [foldl fst snd] in Hr. revert r Hr. apply IH.
    + intros r Hr.
      apply elem_rows_loc_write in Hr as [(Hl & Hv & [[Hn _]|(r0 & Hr0 & _ & ->)])|[_ Hr]].
      * exfalso. apply Hn, Hk. rewrite fmap_cons. apply list_elem_of_here.
      * destruct (decide (c' = col)) as [->|Hne].
        -- rewrite lookup_insert_eq. eauto.
        -- rewrite lookup_insert_ne by done. auto.
      * auto.
    + intros c0 Hc0. apply elem_index_loc_write. right. apply Hk.
      rewrite fmap_cons. by apply list_elem_of_further.
Qed.

End LocSetFacts.

(** ** The table of a play without persona entries *)

Section PipelineFacts.
Import Nx Builder NxAlgo Pandas Analyzer.
Context {lib : Centralities}.

Lemma complete_intro cols df :
  (forall r col, r ∈ rows df -> col ∈ cols -> is_Some (r.2 !! col)) ->
  complete cols df = true.
Proof.
  unfold complete. induction (rows df) as [|r rs IH]; intros Hall; [done|].
  cbn [forallb]. apply andb_true_intro. split.
  - assert (Hr : forall col, col ∈ cols -> is_Some (r.2 !! col)).
    { intros col. apply Hall, list_elem_of_here. }
    clear -Hr. induction cols as [|c cs IHc]; [done|]. cbn [forallb].
    apply andb_true_intro. split.
    + apply bool_decide_eq_true_2, Hr, list_elem_of_here.
    + apply IHc. intros col Hc. by apply Hr, list_elem_of_further.
  - apply IH. intros r' col Hr'. by apply Hall, list_elem_of_further.
Qed.

Lemma all_hashable_assign col f df :
  all_hashable (assign col f df) = all_hashable df.
Proof. unfold all_hashable. by rewrite index_assign. Qed.

Lemma cells_assign_scalar col v df r c :
  r ∈ rows (assign_scalar col v df) ->
  is_Some (r.2 !! col)
  /\ ((forall r0, r0 ∈ rows df -> is_Some (r0.2 !! c)) -> is_Some (r.2 !! c)).
Proof.
  unfold assign_scalar. rewrite rows_assign. intros Hr.
  apply list_elem_of_fmap in Hr as (r0 & -> & Hr0). cbn. split.
  - rewrite lookup_insert_eq. eauto.
  - intros Hc. destruct (decide (c = col)) as [->|Hne].
    + rewrite lookup_insert_eq. eauto.
    + rewrite lookup_insert_ne by done. auto.
Qed.

(** One loop of assignments on a frame whose index holds only names. *)
Lemma loc_stage col (d : gmap string Q) df :
  all_hashable df = true -> col ∈ columns df ->
  exists df', loc_set_all col d df = Ok df'
    /\ all_hashable df' = true
    /\ columns df' = columns df
    /\ (forall l, l ∈ index df'
          <-> (exists c, l = NameL c /\ c ∈ dom d) \/ l ∈ index df)
    /\ ((forall r, r ∈ rows df ->
           (exists c, r.1 = NameL c /\ c ∈ dom d) \/ is_Some (r.2 !! col)) ->
        forall r, r ∈ rows df' -> is_Some (r.2 !! col))
    /\ (forall c', (forall r, r ∈ rows df -> is_Some (r.2 !! c')) ->
          (forall c, c ∈ dom d -> NameL c ∈ index df) ->
          forall r, r ∈ rows df' -> is_Some (r.2 !! c')).
Proof.
  intros Hh Hcol. destruct (loc_set_all_ok col d df Hh) as [Hok Hh'].
  exists (loc_write_all col d df). split; [done|]. split; [done|].
  split; [by apply columns_loc_write_all|].
  split; [intros l; apply elem_index_loc_write_all|].
  assert (Hk : forall c, c ∈ (map_to_list d).*1 <-> c ∈ dom d).
  { intros c. rewrite elem_of_dom, list_elem_of_fmap. split.
    - intros ([c' v] & -> & Hin). apply elem_of_map_to_list in Hin. eauto.
    - intros [v Hv]. exists (c, v). split; [done|].
      by apply elem_of_map_to_list. }
  split.
  - intros Hdf. apply loc_write_list_sets. intros r Hr.
    destruct (Hdf r Hr) as [(c & Hl & Hc)|]; [|by right].
    left. exists c. split; [done|]. by apply Hk.
  - intros c' Hdf Hkeys. apply loc_write_list_keeps; [done|].
    intros c Hc. by apply Hkeys, Hk.
Qed.

Lemma dom_betweenness G : dom (nx_betweenness_centrality G) = nodes G.
Proof.
  apply set_eq. intros c. unfold nx_betweenness_centrality, nodes.
  apply elem_of_dom_imap.
Qed.

Lemma dom_closeness G : dom (nx_closeness_centrality G) = nodes G.
Proof.
  apply set_eq. intros c. unfold nx_closeness_centrality, nodes.
  apply elem_of_dom_imap.
Qed.

Lemma dom_degree G : dom (QofN <$> degree G) = nodes G.
Proof.
  rewrite dom_fmap_L. apply set_eq. intros c. unfold degree, nodes.
  apply elem_of_dom_imap.
Qed.

(** [analyze_characters] on the empty frame: one row per node, with the
    three centralities. *)
Lemma analyze_characters_names G :
  exists df, analyze_characters G (init_centralities []) = Ok df
    /\ all_hashable df = true
    /\ columns df = ["betweenness"; "degree"; "closeness"]
    /\ (forall l, l ∈ index df <-> exists c, l = NameL c /\ c ∈ nodes G)
    /\ (forall r col, r ∈ rows df ->
          col ∈ ["betweenness"; "degree"; "closeness"] ->
          is_Some (r.2 !! col)).
Proof.
  unfold analyze_characters. cbv zeta. cbn [foldl].
  set (df0 := assign_scalar "closeness" 0
                (assign_scalar "degree" 0
                   (assign_scalar "betweenness" 0 (init_centralities [])))).
  assert (H0 : all_hashable df0 = true) by reflexivity.
  assert (Hc0 : columns df0 = ["betweenness"; "degree"; "closeness"])
    by reflexivity.
  assert (Hr0 : rows df0 = []) by reflexivity.
  destruct (loc_stage "betweenness" (nx_betweenness_centrality G) df0 H0)
    as (df1 & -> & H1 & Hc1 & Hi1 & Hs1 & _).
  { rewrite Hc0. set_solver. }
  cbn [mbind result_bind bind].
  destruct (loc_stage "degree" (QofN <$> degree G) df1 H1)
    as (df2 & -> & H2 & Hc2 & Hi2 & Hs2 & Hk2).
  { rewrite Hc1, Hc0. set_solver. }
  cbn [mbind result_bind bind].
  destruct (loc_stage "closeness" (nx_closeness_centrality G) df2 H2)
    as (df3 & -> & H3 & Hc3 & Hi3 & Hs3 & Hk3).
  { rewrite Hc2, Hc1, Hc0. set_solver. }
  rewrite dom_betweenness in *. rewrite dom_degree in *.
  rewrite dom_closeness in *.
  assert (Hx0 : forall l, l ∉ index df0).
  { intros l. unfold index. rewrite Hr0. apply not_elem_of_nil. }
  assert (Hn1 : forall l, l ∈ index df1 <-> exists c, l = NameL c /\ c ∈ nodes G).
  { intros l. rewrite Hi1. split; [intros [?|?]; [done|by apply Hx0 in H]|by left]. }
  assert (Hn2 : forall l, l ∈ index df2 <-> exists c, l = NameL c /\ c ∈ nodes G).
  { intros l. rewrite Hi2, Hn1. tauto. }
  assert (Hn3 : forall l, l ∈ index df3 <-> exists c, l = NameL c /\ c ∈ nodes G).
  { intros l. rewrite Hi3, Hn2. tauto. }
  assert (Hlab : forall (df : DataFrame),
            (forall l, l ∈ index df <-> exists c, l = NameL c /\ c ∈ nodes G) ->
            forall r, r ∈ rows df -> exists c, r.1 = NameL c /\ c ∈ nodes G).
  { intros df Hn r Hr. apply Hn. unfold index. apply list_elem_of_fmap. eauto. }
  assert (Hb1 : forall r, r ∈ rows df1 -> is_Some (r.2 !! "betweenness")).
  { apply Hs1. intros r. rewrite Hr0. intros Hr. by apply elem_of_nil in Hr. }
  assert (Hkey1 : forall c, c ∈ nodes G -> NameL c ∈ index df1).
  { intros c Hc. apply Hn1. eauto. }
  assert (Hkey2 : forall c, c ∈ nodes G -> NameL c ∈ index df2).
  { intros c Hc. apply Hn2. eauto. }
  assert (Hb2 : forall r, r ∈ rows df2 -> is_Some (r.2 !! "betweenness")).
  { by apply Hk2. }
  assert (Hd2 : forall r, r ∈ rows df2 -> is_Some (r.2 !! "degree")).
  { apply Hs2. intros r Hr. left. by apply (Hlab df1). }
  eexists. split; [reflexivity|]. split; [done|].
  split; [by rewrite Hc3, Hc2, Hc1|]. split; [done|].
  intros r col Hr Hcol.
  apply elem_of_cons in Hcol as [->|Hcol]; [by apply Hk3|].
  apply elem_of_cons in Hcol as [->|Hcol]; [by apply Hk3|].
  apply list_elem_of_singleton in Hcol as ->.
  apply Hs3; [|done]. intros r' Hr'. left. by apply (Hlab df2).
Qed.

End PipelineFacts.

Section AnalyzeFacts.
Import Nx Builder NxAlgo Pandas Analyzer.
Context {lib : Centralities}.

Lemma dom_frequencies (segs : list segment) c :
  c ∈ dom (QofN <$> Counter (concat segs)) <-> appears c segs.
Proof. by rewrite dom_fmap, elem_of_dom_Counter, appears_concat. Qed.

(** [get_character_frequencies] on a frame whose index holds only names. *)
Lemma get_character_frequencies_names (segs : list segment) df :
  all_hashable df = true ->
  exists df', get_character_frequencies segs df = Ok df'
    /\ all_hashable df' = true
    /\ columns df' = add_column "frequency" (columns df)
    /\ (forall l, l ∈ index df'
          <-> (exists c, l = NameL c /\ appears c segs) \/ l ∈ index df)
    /\ (forall c', (forall r, r ∈ rows df -> is_Some (r.2 !! c')) ->
          (forall c, appears c segs -> NameL c ∈ index df) ->
          forall r, r ∈ rows df' -> is_Some (r.2 !! c'))
    /\ ((forall c, appears c segs -> NameL c ∈ index df) ->
        forall r, r ∈ rows df' -> is_Some (r.2 !! "frequency")).
Proof.
  intros Hh. unfold get_character_frequencies. cbv zeta.
  set (df0 := assign_scalar "frequency" 0 df).
  assert (H0 : all_hashable df0 = true).
  { subst df0. unfold assign_scalar. by rewrite all_hashable_assign. }
  assert (Hc0 : columns df0 = add_column "frequency" (columns df)) by reflexivity.
  assert (Hi0 : index df0 = index df).
  { subst df0. unfold assign_scalar. by rewrite index_assign. }
  destruct (loc_stage "frequency" (QofN <$> Counter (concat segs)) df0 H0)
    as (df1 & -> & H1 & Hc1 & Hi1 & _ & Hk1).
  { rewrite Hc0. unfold add_column. case_bool_decide; [done|].
    apply elem_of_app. right. apply list_elem_of_here. }
  exists df1. split; [done|]. split; [done|]. split; [by rewrite Hc1|].
  split.
  { intros l. rewrite Hi1, Hi0. by setoid_rewrite dom_frequencies. }
  assert (Hkeys : (forall c, appears c segs -> NameL c ∈ index df) ->
            forall c, c ∈ dom (QofN <$> Counter (concat segs)) ->
                      NameL c ∈ index df0).
  { intros Hk c Hc. rewrite Hi0. by apply Hk, dom_frequencies. }
  split.
  - intros c' Hdf Hk. apply Hk1; [|by apply Hkeys].
    intros r Hr. by apply (cells_assign_scalar "frequency" 0 df r c').
  - intros Hk. apply Hk1; [|by apply Hkeys].
    intros r Hr.
    by destruct (cells_assign_scalar "frequency" 0 df r "frequency" Hr).
Qed.

(** The analysis of a play without persona entries returns; the table
    before the rank columns has the four metric columns and a row for
    every node and every character of a segment. *)
Lemma analyze_names (segs : list segment) :
  exists G df0,
    create_graph segs = Ok G
    /\ analyze [] segs = Ok (G, add_ranks df0)
    /\ columns df0 = ["betweenness"; "degree"; "closeness"; "frequency"]
    /\ (forall l, l ∈ index df0
          <-> exists c, l = NameL c /\ (c ∈ nodes G \/ appears c segs))
    /\ ((forall c, appears c segs -> c ∈ nodes G) ->
        complete metrics df0 = true).
Proof.
  destruct (create_graph_returns segs) as [G HG].
  destruct (analyze_characters_names G) as (df3 & H3 & Hh3 & Hc3 & Hi3 & Hr3).
  destruct (get_character_frequencies_names segs df3 Hh3)
    as (df5 & H5 & Hh5 & Hc5 & Hi5 & Hk5 & Hf5).
  exists G, df5. split; [done|]. split.
  { unfold analyze, fill_centralities. rewrite HG.
    cbn [mbind result_bind bind]. rewrite H3.
    cbn [mbind result_bind bind]. rewrite H5. reflexivity. }
  split; [by rewrite Hc5, Hc3|]. split.
  { intros l. rewrite Hi5, Hi3. split.
    - intros [(c & -> & Hc)|(c & -> & Hc)]; eauto.
    - intros (c & -> & [Hc|Hc]); eauto. }
  intros Hsub.
  assert (Hkeys : forall c, appears c segs -> NameL c ∈ index df3).
  { intros c Hc. apply Hi3. eauto. }
  apply complete_intro. intros r col Hr Hcol. unfold metrics in Hcol.
  apply elem_of_cons in Hcol as [->|Hcol].
  { apply Hk5; [|done|done]. intros r0 Hr0. apply Hr3; [done|]. set_solver. }
  apply elem_of_cons in Hcol as [->|Hcol].
  { apply Hk5; [|done|done]. intros r0 Hr0. apply Hr3; [done|]. set_solver. }
  apply elem_of_cons in Hcol as [->|Hcol].
  { apply Hk5; [|done|done]. intros r0 Hr0. apply Hr3; [done|]. set_solver. }
  apply list_elem_of_singleton in Hcol as ->. by apply Hf5.
Qed.

Lemma all_hashable_personae (personae : list persona) :
  personae <> [] -> all_hashable (init_centralities personae) = false.
Proof. destruct personae as [|p l]; [done|]. reflexivity. Qed.

(** With persona entries in the index, the first assignment by name raises
    [TypeError]. *)
Lemma analyze_raises (personae : list persona) (segs : list segment) :
  personae <> [] -> concat segs <> [] ->
  analyze personae segs = Raise TypeError.
Proof.
  intros Hp Hs. destruct (create_graph_returns segs) as [G HG].
  unfold analyze, fill_centralities. rewrite HG. cbn [mbind result_bind bind].
  unfold analyze_characters. cbv zeta. cbn [foldl].
  set (df0 := assign_scalar "closeness" 0
                (assign_scalar "degree" 0
                   (assign_scalar "betweenness" 0 (init_centralities personae)))).
  assert (H0 : all_hashable df0 = false).
  { subst df0. unfold assign_scalar. rewrite !all_hashable_assign.
    by apply all_hashable_personae. }
  rewrite (loc_set_all_raise "betweenness" _ df0 H0).
  case_decide; [|done]. cbn [mbind result_bind bind].
  rewrite (loc_set_all_raise "degree" _ df0 H0).
  case_decide; [|done]. cbn [mbind result_bind bind].
  rewrite (loc_set_all_raise "closeness" _ df0 H0).
  case_decide; [|done]. cbn [mbind result_bind bind].
  unfold get_character_frequencies. cbv zeta.
  rewrite loc_set_all_raise.
  2:{ unfold assign_scalar. by rewrite all_hashable_assign. }
  case_decide as He; [|done]. exfalso.
  destruct (concat segs) as [|c l] eqn:E; [done|].
  assert (Hc : c ∈ dom (QofN <$> Counter (c :: l))).
  { rewrite dom_fmap, elem_of_dom_Counter. apply list_elem_of_here. }
  rewrite He, dom_empty in Hc. by apply elem_of_empty in Hc.
Qed.

End AnalyzeFacts.

Section IndexClaim.
Import Nx Builder NxAlgo Pandas Analyzer.



End IndexClaim.

(** ** The central character of a play *)

Section CentralCharacterClaim.
Import Nx Builder NxAlgo Pandas Analyzer.




End CentralCharacterClaim.
